(** * Parent-link reconciliation of the event editor

    A shallow embedding of [eventeditor/event_parent_edit_dialog.py]:
    the [ParentLink] value class, the list operations of
    [ParentLinkModel] ([isValid], [appendLink], [removeRow]) and the two
    graph routines of [EditParentsDialog], [_gatherExistingLinks] and
    [_applyChanges].

    Python objects are mutable and compared by identity.  Events are
    therefore named by handles, and the object store is a finite map from
    handles to event records: mutating [e.data] is an update of the store
    at [e], and two references to one event see the same payload. *)

From Stdlib Require Import Ascii.
From stdpp Require Import base numbers option list gmap sets strings pretty.

#[local] Set Warnings "-clear-no-such-hyp".

(** ** Insertion-ordered dictionaries

    A Python [dict] keeps its keys in insertion order.  [d[k] = v]
    replaces the value of a present key in place and appends an absent
    one; [del d[k]] removes the key. *)
Module PyDict.
Section ops.
Context {K V : Type} `{EqDecision K}.

Fixpoint get (d : list (K * V)) (k : K) : option V :=
  match d with
  | [] => None
  | (k', v) :: d' => if decide (k' = k) then Some v else get d' k
  end.

Definition contains (d : list (K * V)) (k : K) : bool :=
  bool_decide (is_Some (get d k)).

Definition keys (d : list (K * V)) : list K := d.*1.

Fixpoint del (d : list (K * V)) (k : K) : list (K * V) :=
  match d with
  | [] => []
  | (k', v) :: d' => if decide (k' = k) then d' else (k', v) :: del d' k
  end.

Fixpoint set (d : list (K * V)) (k : K) (v : V) : list (K * V) :=
  match d with
  | [] => [(k, v)]
  | (k', v') :: d' =>
      if decide (k' = k) then (k, v) :: d' else (k', v') :: set d' k v
  end.

(** The keys of a dictionary are pairwise distinct. *)
Definition wf (d : list (K * V)) : Prop := NoDup (keys d).
End ops.
End PyDict.

(** ** Links *)

Inductive ParentLinkType := Next | SwitchCase | ForkBranch.

#[global] Instance ParentLinkType_eq_dec : EqDecision ParentLinkType.
Proof. solve_decision. Defined.

(** [detail] is the switch-case value; [None] for the other link types. *)
Record ParentLink := mkParentLink {
  parent : nat;
  link_type : ParentLinkType;
  detail : option Z
}.

#[global] Instance ParentLink_eq_dec : EqDecision ParentLink.
Proof. solve_decision. Defined.

(** [ParentLink.__eq__] *)
Definition ParentLink_eq (self other : ParentLink) : bool :=
  bool_decide (parent self = parent other)
  && bool_decide (link_type self = link_type other)
  && bool_decide (detail self = detail other).

(** ** [ParentLinkModel]: the working list [self.l] *)

(** The loop of [isValid], with the set [switch_seen] built so far. *)
Fixpoint isValid_from (switch_seen : gset (nat * option Z))
    (l : list ParentLink) : bool :=
  match l with
  | [] => true
  | pl :: l' =>
      if decide (link_type pl = SwitchCase) then
        let key := (parent pl, detail pl) in
        if decide (key ∈ switch_seen) then false
        else isValid_from ({[key]} ∪ switch_seen) l'
      else isValid_from switch_seen l'
  end.

Definition isValid (l : list ParentLink) : bool := isValid_from ∅ l.

(** [appendLink] returns its boolean result and the list afterwards. *)
Definition appendLink (l : list ParentLink) (link : ParentLink)
    : bool * list ParentLink :=
  if existsb (ParentLink_eq link) l then (false, l)
  else (true, l ++ [link]).

(** [list.pop(row)]: a negative index counts from the end; an index out
    of range raises [IndexError] ([None]) and leaves the list as it is. *)
Definition list_pop {A} (l : list A) (row : Z) : option (list A) :=
  let i := if (row <? 0)%Z then (row + Z.of_nat (length l))%Z else row in
  if ((0 <=? i) && (i <? Z.of_nat (length l)))%Z
  then Some (delete (Z.to_nat i) l) else None.

Definition removeRow (l : list ParentLink) (row : Z)
    : option (bool * list ParentLink) :=
  l' ← list_pop l row; Some (true, l').

(** One edit of the working list, and a run of edits.  An edit that
    raises leaves the list unchanged. *)
Inductive ModelOp := OpAppend (link : ParentLink) | OpRemove (row : Z).

Definition run_op (l : list ParentLink) (op : ModelOp) : list ParentLink :=
  match op with
  | OpAppend link => (appendLink l link).2
  | OpRemove row => default l (snd <$> removeRow l row)
  end.

Definition run_ops (l : list ParentLink) (ops : list ModelOp)
    : list ParentLink :=
  foldl run_op l ops.

(** The number of [ForkBranch] entries of the list for the parent [p],
    as counted into [desired_fork_count]. *)
Definition fork_count (l : list ParentLink) (p : nat) : nat :=
  length (filter (λ pl, link_type pl = ForkBranch ∧ parent pl = p) l).

(** The keys [isValid] collects, in list order. *)
Definition switch_keys (l : list ParentLink) : list (nat * option Z) :=
  omap (λ pl, if decide (link_type pl = SwitchCase)
              then Some (parent pl, detail pl) else None) l.

(** ** The flowchart graph *)

(** Event payloads, with the fields this dialog reads and writes:
    [nxt.v] of the three sequential kinds, [cases] of a switch (value to
    [case.v]) and [forks] of a fork (each entry its [fork.v]).  [NoData]
    stands for every other payload. *)
Inductive EventData :=
  | ActionEvent (nxt : option nat)
  | JoinEvent (nxt : option nat)
  | SubFlowEvent (nxt : option nat)
  | SwitchEvent (cases : list (Z * option nat))
  | ForkEvent (forks : list (option nat))
  | NoData.

#[global] Instance EventData_eq_dec : EqDecision EventData.
Proof. solve_decision. Defined.

Record Event := mkEvent { name : string; data : EventData }.

#[global] Instance Event_eq_dec : EqDecision Event.
Proof. solve_decision. Defined.

Record Flowchart := mkFlowchart { events : list nat }.
Record EventFlow := mkEventFlow { flowchart : option Flowchart }.
Record FlowData := mkFlowData { flow : option EventFlow }.

Record EditParentsDialog := mkDialog {
  flow_data : FlowData;
  child_event : nat;
  model : list ParentLink
}.

(** [isinstance(data, (ActionEvent, JoinEvent, SubFlowEvent))], giving
    [data.nxt.v]. *)
Definition sequential_nxt (d : EventData) : option (option nat) :=
  match d with
  | ActionEvent n | JoinEvent n | SubFlowEvent n => Some n
  | _ => None
  end.

(** [data.nxt.v = n] *)
Definition with_nxt (d : EventData) (n : option nat) : EventData :=
  match d with
  | ActionEvent _ => ActionEvent n
  | JoinEvent _ => JoinEvent n
  | SubFlowEvent _ => SubFlowEvent n
  | other => other
  end.

Definition set_data (ev : Event) (d : EventData) : Event :=
  {| name := name ev; data := d |}.

(** The links one event [e] with payload [d] contributes to the scan:
    the body of the loop of [_gatherExistingLinks]. *)
Definition links_of (child e : nat) (d : EventData) : list ParentLink :=
  match d with
  | ActionEvent n | JoinEvent n | SubFlowEvent n =>
      if decide (n = Some child) then [mkParentLink e Next None] else []
  | SwitchEvent cases =>
      omap (λ kv : Z * option nat,
              if decide (kv.2 = Some child)
              then Some (mkParentLink e SwitchCase (Some kv.1))
              else None) cases
  | ForkEvent forks =>
      omap (λ fork : option nat,
              if decide (fork = Some child)
              then Some (mkParentLink e ForkBranch None)
              else None) forks
  | NoData => []
  end.

Definition links_from (h : gmap nat Event) (child : nat) (e : nat)
    : list ParentLink :=
  match h !! e with
  | None => []
  | Some ev => links_of child e (data ev)
  end.

Definition _gatherExistingLinks (h : gmap nat Event) (fd : FlowData)
    (child : nat) : list ParentLink :=
  match flow fd with
  | None => []
  | Some f =>
      match flowchart f with
      | None => []
      | Some fc => events fc ≫= links_from h child
      end
  end.

(** [EditParentsDialog.__init__] seeds the model from the scan. *)
Definition open_dialog (h : gmap nat Event) (fd : FlowData) (child : nat)
    : EditParentsDialog :=
  {| flow_data := fd; child_event := child;
     model := _gatherExistingLinks h fd child |}.

(** ** The lookups built from the desired links *)

Record Desired := mkDesired {
  desired_next : gset nat;
  desired_switch : gmap nat (gset Z);
  desired_fork_count : gmap nat nat
}.

Definition no_desired : Desired :=
  {| desired_next := ∅; desired_switch := ∅; desired_fork_count := ∅ |}.

(** One round of the loop over [self.model.l]; [None] when the
    assertion [pl.detail is not None] fails. *)
Definition note_link (acc : Desired) (pl : ParentLink) : option Desired :=
  match link_type pl with
  | Next =>
      Some {| desired_next := {[parent pl]} ∪ desired_next acc;
              desired_switch := desired_switch acc;
              desired_fork_count := desired_fork_count acc |}
  | SwitchCase =>
      match detail pl with
      | None => None
      | Some v =>
          Some {| desired_next := desired_next acc;
                  desired_switch :=
                    <[parent pl :=
                        {[v]} ∪ default ∅ (desired_switch acc !! parent pl)]>
                      (desired_switch acc);
                  desired_fork_count := desired_fork_count acc |}
      end
  | ForkBranch =>
      Some {| desired_next := desired_next acc;
              desired_switch := desired_switch acc;
              desired_fork_count :=
                <[parent pl :=
                    default 0 (desired_fork_count acc !! parent pl) + 1]>
                  (desired_fork_count acc) |}
  end.

Fixpoint build_desired (acc : Desired) (l : list ParentLink)
    : option Desired :=
  match l with
  | [] => Some acc
  | pl :: l' => acc' ← note_link acc pl; build_desired acc' l'
  end.

(** ** Reconciling one event *)

(** The removal loop over [list(data.cases.keys())]. *)
Definition remove_undesired (child : nat) (desired_cases : gset Z)
    (cases : list (Z * option nat)) : list (Z * option nat) :=
  foldl (λ cs value,
           if decide (PyDict.get cs value = Some (Some child)
                      ∧ value ∉ desired_cases)
           then PyDict.del cs value else cs)
        cases (PyDict.keys cases).

(** The insertion loop over [desired_cases]; it stops at the first value
    bound to another event and reports it, with the cases as they are at
    that point. *)
Fixpoint add_desired_cases (child : nat) (values : list Z)
    (cases : list (Z * option nat)) : option Z * list (Z * option nat) :=
  match values with
  | [] => (None, cases)
  | value :: rest =>
      if PyDict.contains cases value
         && bool_decide (PyDict.get cases value ≠ Some (Some child))
      then (Some value, cases)
      else if negb (PyDict.contains cases value)
      then add_desired_cases child rest (PyDict.set cases value (Some child))
      else add_desired_cases child rest cases
  end.

(** The loop that rebuilds [data.forks] with [remaining] entries for the
    child still to keep. *)
Fixpoint keep_first (child : nat) (remaining : nat)
    (forks : list (option nat)) : list (option nat) :=
  match forks with
  | [] => []
  | fork :: rest =>
      if decide (fork ≠ Some child) then fork :: keep_first child remaining rest
      else match remaining with
           | S r => fork :: keep_first child r rest
           | O => keep_first child O rest
           end
  end.

Definition reconcile_forks (child : nat) (desired : nat)
    (forks : list (option nat)) : list (option nat) :=
  let current := filter (λ fork, fork = Some child) forks in
  if decide (desired < length current) then keep_first child desired forks
  else if decide (length current < desired)
  then forks ++ replicate (desired - length current) (Some child)
  else forks.

Definition reconcile_next (D : Desired) (child e : nat) (d : EventData)
    (n : option nat) : EventData :=
  if decide (e ∈ desired_next D) then with_nxt d (Some child)
  else if decide (n = Some child) then with_nxt d None
  else d.

(** ** Outcomes of [_applyChanges]

    The method returns [True] for [Applied] and [False] for the outcomes
    that show a message box; [AssertionFailed] is the exception of the
    [assert]. *)
Inductive Outcome :=
  | Applied
  | NoFlowchart
  | InvalidData
  | AssertionFailed
  | OverwriteDeclined (to_overwrite : list nat)
  | Conflict (e : nat) (value : Z).

#[global] Instance Outcome_eq_dec : EqDecision Outcome.
Proof. solve_decision. Defined.

Definition returns_true (o : Outcome) : bool := bool_decide (o = Applied).

(** Iteration over a Python [set] visits every member in an order the
    language leaves open.  The routines below take the enumeration as a
    parameter, and the results hold for each enumeration that lists
    exactly the members. *)
Definition lists_members {A} `{Countable A} (iter : gset A → list A) : Prop :=
  ∀ X x, x ∈ iter X ↔ x ∈ X.

Section Reconciler.
Context (iter_events : gset nat → list nat).
Context (iter_values : gset Z → list Z).

(** The body of the main loop for the event [e] with record [ev]. *)
Definition reconcile_event (D : Desired) (child e : nat) (ev : Event)
    : option Z * Event :=
  match data ev with
  | ActionEvent n | JoinEvent n | SubFlowEvent n =>
      (None, set_data ev (reconcile_next D child e (data ev) n))
  | SwitchEvent cases =>
      let desired_cases := default ∅ (desired_switch D !! e) in
      let cases1 := remove_undesired child desired_cases cases in
      let r := add_desired_cases child (iter_values desired_cases) cases1 in
      (r.1, set_data ev (SwitchEvent r.2))
  | ForkEvent forks =>
      let desired := default 0 (desired_fork_count D !! e) in
      (None, set_data ev (ForkEvent (reconcile_forks child desired forks)))
  | NoData => (None, ev)
  end.

(** The main loop over [flow.flowchart.events].  A handle without a
    record does not occur for Python references; it is skipped. *)
Fixpoint apply_events (D : Desired) (child : nat) (es : list nat)
    (h : gmap nat Event) : Outcome * gmap nat Event :=
  match es with
  | [] => (Applied, h)
  | e :: rest =>
      match h !! e with
      | None => apply_events D child rest h
      | Some ev =>
          let r := reconcile_event D child e ev in
          let h' := <[e := r.2]> h in
          match r.1 with
          | Some value => (Conflict e value, h')
          | None => apply_events D child rest h'
          end
      end
  end.

Definition needs_overwrite (h : gmap nat Event) (child p : nat) : bool :=
  match h !! p with
  | Some ev =>
      match sequential_nxt (data ev) with
      | Some (Some v) => bool_decide (v ≠ child)
      | _ => false
      end
  | None => false
  end.

Definition to_overwrite (h : gmap nat Event) (child : nat) (D : Desired)
    : list nat :=
  filter (λ p, needs_overwrite h child p) (iter_events (desired_next D)).

(** [answer] is what the user replies if the overwrite question is
    asked ([true] for Yes). *)
Definition _applyChanges (answer : bool) (dlg : EditParentsDialog)
    (h : gmap nat Event) : Outcome * gmap nat Event :=
  match flow (flow_data dlg) with
  | None => (NoFlowchart, h)
  | Some f =>
      match flowchart f with
      | None => (NoFlowchart, h)
      | Some fc =>
          if negb (isValid (model dlg)) then (InvalidData, h)
          else
            match build_desired no_desired (model dlg) with
            | None => (AssertionFailed, h)
            | Some D =>
                let ov := to_overwrite h (child_event dlg) D in
                if bool_decide (ov ≠ []) && negb answer
                then (OverwriteDeclined ov, h)
                else apply_events D (child_event dlg) (events fc) h
            end
      end
  end.
End Reconciler.

(** ** Vocabulary of the statements *)

(** How often the link [pl] occurs in a list. *)
Definition count_link (l : list ParentLink) (pl : ParentLink) : nat :=
  length (filter (λ x, x = pl) l).

(** Every [ForkBranch] entry carries no detail, as the scan and
    [addParent] build them. *)
Definition fork_details_none (l : list ParentLink) : Prop :=
  ∀ pl, pl ∈ l → link_type pl = ForkBranch → detail pl = None.

(** The fork entries that target the child, counted, and the others. *)
Definition targets_child (child : nat) (forks : list (option nat)) : nat :=
  length (filter (λ fork, fork = Some child) forks).

Definition other_forks (child : nat) (forks : list (option nat))
    : list (option nat) :=
  filter (λ fork, fork ≠ Some child) forks.

(** The switch cases bound to something else than the child. *)
Definition other_cases (child : nat) (cases : list (Z * option nat))
    : list (Z * option nat) :=
  filter (λ kv, kv.2 ≠ Some child) cases.

(** The payload has a link into the child. *)
Definition linked_to (child : nat) (d : EventData) : Prop :=
  match d with
  | ActionEvent n | JoinEvent n | SubFlowEvent n => n = Some child
  | SwitchEvent cases => ∃ value, (value, Some child) ∈ cases
  | ForkEvent forks => Some child ∈ forks
  | NoData => False
  end.

(** [ev'] is [ev] up to its links into the child: the name and the kind
    of payload are the same, and the cases and fork entries for other
    events are the same, in the same order. *)
Definition others_untouched (child : nat) (ev ev' : Event) : Prop :=
  name ev' = name ev ∧
  match data ev with
  | SwitchEvent cs =>
      ∃ cs', data ev' = SwitchEvent cs'
             ∧ other_cases child cs' = other_cases child cs
  | ForkEvent fs =>
      ∃ fs', data ev' = ForkEvent fs'
             ∧ other_forks child fs' = other_forks child fs
  | NoData => data ev' = NoData
  | d => ∃ n, data ev' = with_nxt d n
  end.

(** The link [pl] fits the payload of its parent. *)
Definition compatible (d : EventData) (pl : ParentLink) : Prop :=
  match d with
  | ActionEvent _ | JoinEvent _ | SubFlowEvent _ =>
      link_type pl = Next ∧ detail pl = None
  | SwitchEvent _ => link_type pl = SwitchCase ∧ is_Some (detail pl)
  | ForkEvent _ => link_type pl = ForkBranch ∧ detail pl = None
  | NoData => False
  end.

(** Every switch of the store is a dictionary: its keys are distinct. *)
Definition store_wf (h : gmap nat Event) : Prop :=
  ∀ e ev cases,
    h !! e = Some ev → data ev = SwitchEvent cases → PyDict.wf cases.

(** A check of [store_wf] that evaluates on a concrete store. *)
Definition switch_keys_distinct (ev : Event) : bool :=
  match data ev with
  | SwitchEvent cases => bool_decide (NoDup (PyDict.keys cases))
  | _ => true
  end.

Definition store_wfb (h : gmap nat Event) : bool :=
  bool_decide (map_Forall (λ _ ev, Is_true (switch_keys_distinct ev)) h).

(** The enumeration used to run the routines on concrete graphs. *)
Definition sorted_iter {A} `{Countable A} : gset A → list A := elements.

(** ** Sample flowcharts

    Event 0 is the edited child.  [A] is an action whose next pointer
    goes elsewhere, [S] a switch with two cases for the child and one for
    another event, [F] a fork with three entries for the child among
    others, [J] a join that leads to the child. *)
Definition sample_store : gmap nat Event :=
  list_to_map
    [(0, mkEvent "Child" (ActionEvent None));
     (1, mkEvent "A" (ActionEvent (Some 5)));
     (2, mkEvent "S" (SwitchEvent [(1%Z, Some 0); (2%Z, Some 0); (3%Z, Some 5)]));
     (3, mkEvent "F" (ForkEvent [Some 0; Some 5; Some 0; Some 6; Some 0]));
     (4, mkEvent "J" (JoinEvent (Some 0)));
     (5, mkEvent "X" (ActionEvent None));
     (6, mkEvent "Y" (SubFlowEvent None))].

Definition sample_flow : FlowData :=
  mkFlowData (Some (mkEventFlow (Some (mkFlowchart [0; 1; 2; 3; 4; 5; 6])))).

Definition sample_dialog (l : list ParentLink) : EditParentsDialog :=
  mkDialog sample_flow 0 l.

(** Two switches: [S1] has a case for the child, [S2] has case 3 bound to
    event 5 and case 4 bound to the child. *)
Definition conflict_store : gmap nat Event :=
  list_to_map
    [(0, mkEvent "Child" (ActionEvent None));
     (1, mkEvent "S1" (SwitchEvent [(1%Z, Some 0)]));
     (2, mkEvent "S2" (SwitchEvent [(3%Z, Some 5); (4%Z, Some 0)]));
     (5, mkEvent "X" (ActionEvent None))].

Definition conflict_flow : FlowData :=
  mkFlowData (Some (mkEventFlow (Some (mkFlowchart [0; 1; 2; 5])))).

(** The dialog opened on the child, after the user removed the two seeded
    rows and added case 3 of [S2]. *)
Definition conflict_dialog : EditParentsDialog :=
  let dlg := open_dialog conflict_store conflict_flow 0 in
  {| flow_data := flow_data dlg; child_event := child_event dlg;
     model := run_ops (model dlg)
                [OpRemove 0; OpRemove 0;
                 OpAppend (mkParentLink 2 SwitchCase (Some 3%Z))] |}.

(** A fork that does not lead to the child yet. *)
Definition lone_fork_store : gmap nat Event :=
  list_to_map
    [(0, mkEvent "Child" (ActionEvent None));
     (1, mkEvent "F" (ForkEvent [Some 5]));
     (5, mkEvent "X" (ActionEvent None))].

Definition lone_fork_flow : FlowData :=
  mkFlowData (Some (mkEventFlow (Some (mkFlowchart [0; 1; 5])))).

(** ** The table model and the rest of the dialog *)

Definition rowCount (l : list ParentLink) : nat := length l.

(** [l[row]]: a negative index counts from the end; [None] is the
    [IndexError] of an index out of range. *)
Definition list_index {A} (l : list A) (row : Z) : option A :=
  let i := if (row <? 0)%Z then (row + Z.of_nat (length l))%Z else row in
  if ((0 <=? i) && (i <? Z.of_nat (length l)))%Z
  then l !! Z.to_nat i else None.

(** The roles [data] tells apart, and what a cell holds: the link itself,
    a text, or the empty [QVariant()]. *)
Inductive ItemDataRole := DisplayRole | ToolTipRole | UserRole | OtherRole.

#[global] Instance ItemDataRole_eq_dec : EqDecision ItemDataRole.
Proof. solve_decision. Defined.

Inductive Cell := CellEmpty | CellText (s : string) | CellLink (pl : ParentLink).

(** The text of the [Link] column; [f'{pl.detail}'] prints an integer in
    decimal and a missing detail as [None]. *)
Definition link_text (pl : ParentLink) : string :=
  match link_type pl with
  | Next => "Next"
  | ForkBranch => "Fork branch"
  | SwitchCase =>
      "Switch case = " +:+
      match detail pl with Some v => pretty v | None => "None" end
  end.

(** [ParentLinkModel.data], with [index.row()] and [index.column()] as
    arguments.  [util.get_event_full_description] is taken as given. *)
Definition data_cell (get_event_full_description : nat → string)
    (l : list ParentLink) (row col : Z) (role : ItemDataRole) : option Cell :=
  pl ← list_index l row;
  Some (if decide (role = UserRole) then CellLink pl
        else if decide (role = DisplayRole ∨ role = ToolTipRole) then
          if decide (col = 0%Z)
          then CellText (get_event_full_description (parent pl))
          else if decide (col = 1%Z) then CellText (link_text pl)
          else CellEmpty
        else CellEmpty).

(** [addParent]: [chosen] is the event picked in the chooser ([None] when
    the chooser is dismissed), [value] and [ok] what the input dialog
    gives when a switch is picked.  The result names the branch taken and
    gives the list afterwards. *)
Inductive AddParentResult :=
  | ParentAdded
  | ChooserDismissed
  | SelfParentRejected
  | ValueDismissed
  | DuplicateRejected
  | UnsupportedParent.

Definition append_parent (l : list ParentLink) (link : ParentLink)
    : AddParentResult * list ParentLink :=
  let r := appendLink l link in
  (if r.1 then ParentAdded else DuplicateRejected, r.2).

Definition addParent (h : gmap nat Event) (child : nat) (l : list ParentLink)
    (chosen : option nat) (value : Z) (ok : bool)
    : AddParentResult * list ParentLink :=
  match chosen with
  | None => (ChooserDismissed, l)
  | Some selected =>
      if decide (selected = child) then (SelfParentRejected, l)
      else
        match data <$> h !! selected with
        | Some (ActionEvent _ | JoinEvent _ | SubFlowEvent _) =>
            append_parent l (mkParentLink selected Next None)
        | Some (ForkEvent _) =>
            append_parent l (mkParentLink selected ForkBranch None)
        | Some (SwitchEvent _) =>
            if ok
            then append_parent l (mkParentLink selected SwitchCase (Some value))
            else (ValueDismissed, l)
        | _ => (UnsupportedParent, l)
        end
  end.

(** What the user can do to the working list while the dialog is open:
    add a parent, or remove a row from the context menu. *)
Inductive DialogEdit :=
  | EditAdd (chosen : option nat) (value : Z) (ok : bool)
  | EditRemove (row : Z).

Definition edit_step (h : gmap nat Event) (child : nat)
    (l : list ParentLink) (ed : DialogEdit) : list ParentLink :=
  match ed with
  | EditAdd chosen value ok => (addParent h child l chosen value ok).2
  | EditRemove row => default l (snd <$> removeRow l row)
  end.

Definition edit_dialog (h : gmap nat Event) (child : nat)
    (l : list ParentLink) (eds : list DialogEdit) : list ParentLink :=
  foldl (edit_step h child) l eds.

(** [accept]: whether [flowDataChanged] is emitted and the dialog closes,
    and the store afterwards. *)
Definition accept (iter_events : gset nat → list nat)
    (iter_values : gset Z → list Z) (answer : bool)
    (dlg : EditParentsDialog) (h : gmap nat Event) : bool * gmap nat Event :=
  let r := _applyChanges iter_events iter_values answer dlg h in
  (returns_true r.1, r.2).

(** The desired switch values of a parent, read off the list. *)
Definition wants_case (l : list ParentLink) (p : nat) (v : Z) : Prop :=
  ∃ pl, pl ∈ l ∧ link_type pl = SwitchCase ∧ parent pl = p
        ∧ detail pl = Some v.

(** A desired [Next] link on a sequential parent that points elsewhere:
    what makes [_applyChanges] ask before it overwrites. *)
Definition overwrites (h : gmap nat Event) (child : nat)
    (l : list ParentLink) : Prop :=
  ∃ pl ev x, pl ∈ l ∧ link_type pl = Next ∧ h !! parent pl = Some ev
             ∧ sequential_nxt (data ev) = Some (Some x) ∧ x ≠ child.

(** A desired switch value that its parent binds to another event. *)
Definition bound_elsewhere (h : gmap nat Event) (child : nat)
    (es : list nat) (l : list ParentLink) : Prop :=
  ∃ e ev cs v t, e ∈ es ∧ h !! e = Some ev ∧ data ev = SwitchEvent cs
                 ∧ wants_case l e v ∧ PyDict.get cs v = Some t
                 ∧ t ≠ Some child.

(** ** The timeline editor ([timeline_editor.py])

    A clip is an object read with [getattr]: a finite table from
    attribute names to values (a string, a float, [None], the empty
    dict of [parameters], or some other object).  The numbers of the
    spin boxes are floats; they are only stored and passed on, so their
    type [F] and the defaults [0.0] and [1.0] are taken as given.  A
    timeline object counts as true in a condition. *)
Module Timeline.
Section defs.
Context {F : Type} (zero one : F).

Inductive Val :=
  | VStr (s : string)
  | VNum (x : F)
  | VNone
  | VDict
  | VOther (tag : nat).

(** A timeline object may lack the attribute [clips]. *)
Record Timeline := mkTimeline { clips : option (list (gmap string Val)) }.

(** [getattr(self.timeline, 'clips', [])]; [self.timeline] may be
    [None]. *)
Definition clips_of (tl : option Timeline) : list (gmap string Val) :=
  match tl with
  | Some t => default [] (clips t)
  | None => []
  end.

(** One entry of [clips_data]. *)
Record ClipData := mkClipData {
  cd_id : nat;
  cd_name : Val;
  cd_start_time : Val;
  cd_duration : Val;
  cd_type : Val;
  cd_actor : Val
}.

Definition clip_dict (i : nat) (clip : gmap string Val) : ClipData :=
  {| cd_id := i;
     cd_name := default (VStr ("Clip_" +:+ pretty i)) (clip !! "name");
     cd_start_time := default (VNum zero) (clip !! "start_time");
     cd_duration := default (VNum one) (clip !! "duration");
     cd_type := default (VStr "action") (clip !! "type");
     cd_actor := default VNone (clip !! "actor_identifier") |}.

(** [prepare_timeline_data], giving the list under the key [clips]. *)
Definition prepare_timeline_data (tl : option Timeline) : list ClipData :=
  match tl with
  | None => []
  | Some _ => imap clip_dict (clips_of tl)
  end.

(** [on_clip_selected]: [clip_id] is the entry [id] of [clip_data] if
    there is one; the result is [self.selected_clip] afterwards. *)
Definition on_clip_selected (tl : option Timeline)
    (selected_clip : option (gmap string Val)) (clip_id : option Z)
    : option (gmap string Val) :=
  let id := default (-1)%Z clip_id in
  if ((0 <=? id) && (id <? Z.of_nat (length (clips_of tl))))%Z
  then clips_of tl !! Z.to_nat id
  else selected_clip.

(** The object [AddClipDialog.accept] builds. *)
Definition new_clip (name : string) (start duration : F) (type : string)
    : gmap string Val :=
  <["name" := VStr name]>
    (<["start_time" := VNum start]>
       (<["duration" := VNum duration]>
          (<["type" := VStr type]>
             (<["actor_identifier" := VNone]>
                (<["parameters" := VDict]> ∅))))).

(** [AddClipDialog.accept]: whether the dialog is accepted, and the
    timeline afterwards.  Without a list [clips] the new clip goes to a
    list of its own that nobody keeps. *)
Definition accept (tl : option Timeline) (name : string)
    (start duration : F) (type : string) : bool * option Timeline :=
  if decide (name = "") then (false, tl)
  else
    (true,
     match tl with
     | Some (mkTimeline (Some l)) =>
         Some (mkTimeline (Some (l ++ [new_clip name start duration type])))
     | _ => tl
     end).
End defs.
End Timeline.

(** ** The title of the timeline window ([timeline.py])

    The window keeps the unsaved state in its title. *)
Module TimelineWindow.

(** ["*" in title] *)
Fixpoint has_star (title : string) : bool :=
  match title with
  | EmptyString => false
  | String c rest => if decide (c = "*"%char) then true else has_star rest
  end.

(** [title.replace(" *", "")]: every occurrence of the marker found from
    left to right is dropped. *)
Fixpoint without_marker (title : string) : string :=
  match title with
  | EmptyString => EmptyString
  | String c rest =>
      match rest with
      | String c' rest' =>
          if decide (c = " "%char ∧ c' = "*"%char) then without_marker rest'
          else String c (without_marker rest)
      | EmptyString => String c EmptyString
      end
  end.

(** The title set by [load_timeline]. *)
Definition loaded_title (current_file : string) : string :=
  "EventEditor - Timeline Mode - " +:+ current_file.

(** The title after [on_timeline_modified]. *)
Definition on_timeline_modified (title : string) : string :=
  if has_star title then title else title +:+ " *".

(** The title after a [save_file] that wrote the file. *)
Definition saved_title (title : string) : string := without_marker title.

(** Whether [closeEvent] asks about unsaved changes. *)
Definition asks_on_close (title : string) : bool := has_star title.
End TimelineWindow.

(** Tactics for closed goals on the sample flowcharts: a decidable
    proposition by evaluation, and a membership hypothesis in a literal
    list by cases. *)
Ltac by_evaluation := apply (bool_decide_unpack _); vm_compute; exact I.

Ltac each_member H :=
  repeat (apply elem_of_cons in H as [H|H]; [subst|]);
  [..|by apply elem_of_nil in H].

(** * Properties *)

(** ** Dictionaries *)
Module PyDictFacts.
Section facts.
Context {K V : Type} `{EqDecision K}.
Implicit Types (d : list (K * V)) (k : K) (v : V).

Lemma get_None d k : PyDict.get d k = None ↔ k ∉ PyDict.keys d.
Proof.
  induction d as [|[k' v'] d IH]; simpl.
  - split; [intros _; apply not_elem_of_nil | done].
  - rewrite not_elem_of_cons. case_decide; subst.
    + split; [done | intros [? _]; done].
    + rewrite IH. split; [intros ?; split; [congruence|done] | by intros [_ ?]].
Qed.

Lemma get_Some_elem d k v : PyDict.get d k = Some v → (k, v) ∈ d.
Proof.
  induction d as [|[k' v'] d IH]; simpl; [done|].
  case_decide; subst.
  - intros [= ->]. left.
  - intros ?. right. auto.
Qed.

Lemma elem_get d k v : PyDict.wf d → (k, v) ∈ d → PyDict.get d k = Some v.
Proof.
  unfold PyDict.wf, PyDict.keys.
  induction d as [|[k' v'] d IH]; simpl; [by intros _ ?%elem_of_nil|].
  rewrite NoDup_cons. intros [Hk Hd] Hin.
  apply elem_of_cons in Hin as [[= <- <-]|Hin].
  - by rewrite decide_True.
  - rewrite decide_False; [by apply IH|].
    intros ->. apply Hk. apply list_elem_of_fmap. by exists (k, v).
Qed.

Lemma contains_true d k : PyDict.contains d k = true ↔ k ∈ PyDict.keys d.
Proof.
  unfold PyDict.contains. rewrite bool_decide_eq_true.
  destruct (PyDict.get d k) eqn:E.
  - split; [intros _|by eauto].
    apply get_Some_elem in E. apply list_elem_of_fmap. by exists (k, v).
  - apply get_None in E. split; [by intros [? ?]|done].
Qed.

Lemma contains_false d k : PyDict.contains d k = false ↔ k ∉ PyDict.keys d.
Proof.
  rewrite <- contains_true. destruct (PyDict.contains d k); naive_solver.
Qed.

Lemma set_absent d k v : k ∉ PyDict.keys d → PyDict.set d k v = d ++ [(k, v)].
Proof.
  induction d as [|[k' v'] d IH]; simpl; [done|].
  rewrite not_elem_of_cons. intros [Hne Hd].
  rewrite decide_False by done. by rewrite IH.
Qed.

Lemma del_absent d k : k ∉ PyDict.keys d → PyDict.del d k = d.
Proof.
  induction d as [|[k' v'] d IH]; simpl; [done|].
  rewrite not_elem_of_cons. intros [Hne Hd].
  rewrite decide_False by done. by rewrite IH.
Qed.

Lemma wf_cons k v d : PyDict.wf ((k, v) :: d) ↔ (k ∉ PyDict.keys d) ∧ PyDict.wf d.
Proof. unfold PyDict.wf, PyDict.keys. simpl. apply NoDup_cons. Qed.

Lemma wf_snoc d k v : PyDict.wf d → k ∉ PyDict.keys d → PyDict.wf (d ++ [(k, v)]).
Proof.
  unfold PyDict.wf, PyDict.keys. intros Hd Hk. rewrite fmap_app. simpl.
  apply NoDup_app. split_and!; [done| |apply NoDup_singleton].
  intros x Hx Hx'%list_elem_of_singleton. by subst.
Qed.
End facts.
End PyDictFacts.

(** ** The working list *)

Lemma ParentLink_eq_true (a b : ParentLink) : ParentLink_eq a b = true ↔ a = b.
Proof.
  unfold ParentLink_eq. rewrite !andb_true_iff, !bool_decide_eq_true.
  destruct a, b; simpl.
  split; [by intros [[-> ->] ->] | by intros [= -> -> ->]].
Qed.

Lemma appendLink_present (l : list ParentLink) (link : ParentLink) :
  link ∈ l → appendLink l link = (false, l).
Proof.
  intros Hin. unfold appendLink.
  assert (existsb (ParentLink_eq link) l = true) as ->; [|done].
  apply existsb_exists. exists link. split; [by apply list_elem_of_In|].
  by apply ParentLink_eq_true.
Qed.

Lemma appendLink_absent (l : list ParentLink) (link : ParentLink) :
  link ∉ l → appendLink l link = (true, l ++ [link]).
Proof.
  intros Hin. unfold appendLink.
  destruct (existsb (ParentLink_eq link) l) eqn:E; [|done].
  apply existsb_exists in E as (x & Hx & Heq).
  apply ParentLink_eq_true in Heq as <-. by apply list_elem_of_In in Hx.
Qed.

(** C4: a candidate equal to an entry of the list in parent, link type and
    detail is refused by [appendLink]: the result is [False] and the list
    is the one before the call, with no entry merged or altered. *)
Theorem appendLink_rejects_duplicate (l : list ParentLink) (link : ParentLink) :
  (∃ existing, existing ∈ l ∧ parent existing = parent link
     ∧ link_type existing = link_type link ∧ detail existing = detail link) →
  appendLink l link = (false, l).
Proof.
  intros (existing & Hin & Hp & Ht & Hd). apply appendLink_present.
  destruct existing, link; simpl in *. by subst.
Qed.

Lemma appendLink_rejects_duplicate_witness :
  appendLink [mkParentLink 4 ForkBranch None; mkParentLink 7 SwitchCase (Some 2%Z)]
             (mkParentLink 7 SwitchCase (Some 2%Z))
  = (false, [mkParentLink 4 ForkBranch None; mkParentLink 7 SwitchCase (Some 2%Z)]).
Proof.
  apply appendLink_rejects_duplicate.
  exists (mkParentLink 7 SwitchCase (Some 2%Z)).
  split; [|done]. apply list_elem_of_In. simpl. auto.
Defined.

Lemma switch_keys_cons (pl : ParentLink) (l : list ParentLink) :
  switch_keys (pl :: l) =
    if decide (link_type pl = SwitchCase)
    then (parent pl, detail pl) :: switch_keys l else switch_keys l.
Proof. unfold switch_keys. simpl. by case_decide. Qed.

Lemma switch_keys_app (l1 l2 : list ParentLink) :
  switch_keys (l1 ++ l2) = switch_keys l1 ++ switch_keys l2.
Proof. apply omap_app. Qed.

Lemma elem_of_switch_keys (l : list ParentLink) (k : nat * option Z) :
  k ∈ switch_keys l ↔
  ∃ pl, pl ∈ l ∧ link_type pl = SwitchCase ∧ k = (parent pl, detail pl).
Proof.
  unfold switch_keys. rewrite list_elem_of_omap. split.
  - intros (pl & Hin & Hk). exists pl. case_decide; [|done].
    injection Hk as <-. done.
  - intros (pl & Hin & Hty & ->). exists pl. split; [done|].
    by rewrite decide_True.
Qed.

Lemma isValid_from_true (seen : gset (nat * option Z)) (l : list ParentLink) :
  isValid_from seen l = true ↔
  NoDup (switch_keys l) ∧ ∀ k, k ∈ switch_keys l → k ∉ seen.
Proof.
  revert seen. induction l as [|pl l IH]; intros seen.
  - simpl. split; [|done]. intros _. split; [apply NoDup_nil_2|].
    by intros k ?%elem_of_nil.
  - rewrite switch_keys_cons. simpl. case_decide; [|apply IH].
    case_decide as Hseen.
    + split; [done|]. intros [_ Hk]. exfalso. eapply Hk; [left|done].
    + rewrite IH, NoDup_cons. split.
      * intros [Hnd Hk]. split_and!; [|done|].
        -- intros Hin. apply (Hk _ Hin). set_solver.
        -- intros k [->|Hin]%elem_of_cons; [done|].
           specialize (Hk _ Hin). set_solver.
      * intros [[Hni Hnd] Hk]. split; [done|].
        intros k Hin. specialize (Hk k). set_solver.
Qed.

Lemma isValid_NoDup (l : list ParentLink) :
  isValid l = true ↔ NoDup (switch_keys l).
Proof.
  unfold isValid. rewrite isValid_from_true. split; [by intros [? _]|].
  intros ?. split; [done|]. intros k _. apply not_elem_of_empty.
Qed.

Lemma isValid_repeated_case (l1 l2 l3 : list ParentLink) (pl1 pl2 : ParentLink) :
  link_type pl1 = SwitchCase → link_type pl2 = SwitchCase →
  parent pl1 = parent pl2 → detail pl1 = detail pl2 →
  isValid (l1 ++ pl1 :: l2 ++ pl2 :: l3) = false.
Proof.
  intros Ht1 Ht2 Hp Hd. apply not_true_is_false. rewrite isValid_NoDup.
  rewrite switch_keys_app, switch_keys_cons, decide_True by done.
  rewrite switch_keys_app, switch_keys_cons, decide_True by done.
  rewrite Hp, Hd. intros (_ & _ & Hnd)%NoDup_app.
  apply NoDup_cons in Hnd as [Hni _]. apply Hni.
  apply elem_of_app. right. left.
Qed.

(** ** Edits of the working list and fork entries *)

Lemma fork_count_app (l1 l2 : list ParentLink) (p : nat) :
  fork_count (l1 ++ l2) p = fork_count l1 p + fork_count l2 p.
Proof. unfold fork_count. by rewrite filter_app, length_app. Qed.

Lemma fork_count_zero (l : list ParentLink) (p : nat) :
  fork_details_none l → mkParentLink p ForkBranch None ∉ l → fork_count l p = 0.
Proof.
  intros Hnone Hni. unfold fork_count.
  destruct (filter _ l) as [|pl rest] eqn:E; [done|]. exfalso.
  assert (pl ∈ filter (λ pl, link_type pl = ForkBranch ∧ parent pl = p) l)
    as [[Hty Hp] Hin]%list_elem_of_filter by (rewrite E; left).
  apply Hni. specialize (Hnone pl Hin Hty).
  destruct pl; simpl in *. by subst.
Qed.

Lemma fork_count_delete (l : list ParentLink) (i p : nat) :
  fork_count (delete i l) p ≤ fork_count l p.
Proof.
  unfold fork_count. revert i. induction l as [|x l IH]; intros i; [done|].
  destruct i as [|i]; simpl.
  - rewrite filter_cons. case_decide; simpl; lia.
  - rewrite !filter_cons. specialize (IH i). case_decide; simpl; lia.
Qed.

Lemma run_op_fork_count (l : list ParentLink) (op : ModelOp) (p n : nat) :
  fork_details_none l →
  (∀ link, op = OpAppend link → link_type link = ForkBranch → detail link = None) →
  fork_count l p ≤ max n 1 →
  fork_details_none (run_op l op) ∧ fork_count (run_op l op) p ≤ max n 1.
Proof.
  intros Hnone Hop Hle. destruct op as [link|row]; simpl.
  - destruct (decide (link ∈ l)) as [Hin|Hni].
    + by rewrite appendLink_present.
    + rewrite appendLink_absent by done. simpl. split.
      * intros pl [Hpl|Hpl%list_elem_of_singleton]%elem_of_app;
          [by apply Hnone|]. subst pl. by apply Hop.
      * rewrite fork_count_app. unfold fork_count at 2.
        rewrite filter_cons, filter_nil. case_decide as Hf; simpl; [|lia].
        destruct Hf as [Hty <-].
        rewrite fork_count_zero; [lia|done|].
        specialize (Hop link eq_refl Hty).
        destruct link; simpl in *. by subst.
  - unfold removeRow, list_pop.
    destruct (_ && _)%bool; simpl; [|done]. split.
    + intros pl Hin. apply Hnone. eapply elem_of_submseteq; [done|].
      apply sublist_submseteq, sublist_delete.
    + etrans; [apply fork_count_delete|done].
Qed.

Lemma run_ops_fork_count (ops : list ModelOp) (l : list ParentLink) (p n : nat) :
  fork_details_none l →
  (∀ link, OpAppend link ∈ ops → link_type link = ForkBranch → detail link = None) →
  fork_count l p ≤ max n 1 →
  fork_count (run_ops l ops) p ≤ max n 1.
Proof.
  revert l. induction ops as [|op ops IH]; intros l Hnone Hops Hle; [done|].
  simpl. destruct (run_op_fork_count l op p n) as [Hnone' Hle']; [done| |done|].
  - intros link ->. apply Hops. left.
  - apply IH; [done| |done]. intros link Hin. apply Hops. by right.
Qed.

(** ** The lookups *)

Lemma note_link_spec (acc acc' : Desired) (pl : ParentLink) :
  note_link acc pl = Some acc' →
  (∀ p, p ∈ desired_next acc' ↔
        p ∈ desired_next acc ∨ (link_type pl = Next ∧ parent pl = p)) ∧
  (∀ p v, v ∈ default ∅ (desired_switch acc' !! p) ↔
          v ∈ default ∅ (desired_switch acc !! p)
          ∨ (link_type pl = SwitchCase ∧ parent pl = p ∧ detail pl = Some v)) ∧
  (∀ p, default 0 (desired_fork_count acc' !! p) =
        default 0 (desired_fork_count acc !! p)
        + (if decide (link_type pl = ForkBranch ∧ parent pl = p) then 1 else 0)).
Proof.
  unfold note_link. destruct pl as [q ty d]; simpl.
  destruct ty; [|destruct d as [w|]; [|done]|]; intros [= <-]; simpl.
  - split_and!.
    + intros p. rewrite elem_of_union, elem_of_singleton. naive_solver.
    + intros p v. naive_solver.
    + intros p. lia.
  - split_and!.
    + intros p. naive_solver.
    + intros p v. destruct (decide (q = p)) as [->|Hne].
      * rewrite lookup_insert_eq. simpl.
        rewrite elem_of_union, elem_of_singleton. naive_solver.
      * rewrite lookup_insert_ne by done. naive_solver.
    + intros p. lia.
  - split_and!.
    + intros p. naive_solver.
    + intros p v. naive_solver.
    + intros p. destruct (decide (q = p)) as [->|Hne].
      * rewrite lookup_insert_eq. simpl.
        destruct (decide (ForkBranch = ForkBranch ∧ p = p)) as [_|[]]; done.
      * rewrite lookup_insert_ne by done.
        destruct (decide (ForkBranch = ForkBranch ∧ q = p)) as [[_ ?]|_];
          [done|lia].
Qed.

Lemma build_desired_spec (l : list ParentLink) (acc D : Desired) :
  build_desired acc l = Some D →
  (∀ p, p ∈ desired_next D ↔
        p ∈ desired_next acc
        ∨ ∃ pl, pl ∈ l ∧ link_type pl = Next ∧ parent pl = p) ∧
  (∀ p v, v ∈ default ∅ (desired_switch D !! p) ↔
          v ∈ default ∅ (desired_switch acc !! p)
          ∨ ∃ pl, pl ∈ l ∧ link_type pl = SwitchCase ∧ parent pl = p
                  ∧ detail pl = Some v) ∧
  (∀ p, default 0 (desired_fork_count D !! p) =
        default 0 (desired_fork_count acc !! p) + fork_count l p).
Proof.
  revert acc. induction l as [|pl l IH]; intros acc; simpl.
  - intros [= <-]. split_and!.
    + intros p. split; [by left|]. intros [?|(pl & []%elem_of_nil & _)]; done.
    + intros p v. split; [by left|]. intros [?|(pl & []%elem_of_nil & _)]; done.
    + intros p. unfold fork_count. simpl. lia.
  - destruct (note_link acc pl) as [acc'|] eqn:E; simpl; [|done].
    intros HD. destruct (IH _ HD) as (Hn & Hs & Hf).
    destruct (note_link_spec _ _ _ E) as (Hn' & Hs' & Hf').
    split_and!.
    + intros p. rewrite Hn, Hn'. split.
      * intros [[?|[? ?]]|(x & ? & ? & ?)]; [by left| |].
        -- right. exists pl. split; [left|done].
        -- right. exists x. split; [by right|done].
      * intros [?|(x & [->|?]%elem_of_cons & ? & ?)].
        -- by left; left.
        -- by left; right.
        -- right. by exists x.
    + intros p v. rewrite Hs, Hs'. split.
      * intros [[?|(? & ? & ?)]|(x & ? & ? & ? & ?)]; [by left| |].
        -- right. exists pl. split; [left|done].
        -- right. exists x. split; [by right|done].
      * intros [?|(x & [->|?]%elem_of_cons & ? & ? & ?)].
        -- by left; left.
        -- by left; right.
        -- right. by exists x.
    + intros p. rewrite Hf, Hf'. unfold fork_count. rewrite filter_cons.
      repeat case_decide; simpl; first [lia | tauto].
Qed.

Lemma build_desired_is_Some (l : list ParentLink) (acc : Desired) :
  (∀ pl, pl ∈ l → link_type pl = SwitchCase → is_Some (detail pl)) →
  is_Some (build_desired acc l).
Proof.
  revert acc. induction l as [|pl l IH]; intros acc Hl; simpl; [by eexists|].
  assert (is_Some (note_link acc pl)) as [acc' ->].
  { unfold note_link. destruct (link_type pl) eqn:Ety; [by eexists| |by eexists].
    destruct (Hl pl) as [v ->]; [left|done|by eexists]. }
  simpl. apply IH. intros x Hx. apply Hl. by right.
Qed.

Lemma build_desired_next (l : list ParentLink) (D : Desired) (p : nat) :
  build_desired no_desired l = Some D →
  p ∈ desired_next D ↔ ∃ pl, pl ∈ l ∧ link_type pl = Next ∧ parent pl = p.
Proof.
  intros (Hn & _ & _)%build_desired_spec. rewrite Hn. simpl.
  split; [intros [[]%not_elem_of_empty|?]; done | by right].
Qed.

Lemma build_desired_switch (l : list ParentLink) (D : Desired) (p : nat) (v : Z) :
  build_desired no_desired l = Some D →
  v ∈ default ∅ (desired_switch D !! p) ↔
  ∃ pl, pl ∈ l ∧ link_type pl = SwitchCase ∧ parent pl = p ∧ detail pl = Some v.
Proof.
  intros (_ & Hs & _)%build_desired_spec. rewrite Hs. simpl.
  rewrite lookup_empty. simpl.
  split; [intros [[]%not_elem_of_empty|?]; done | by right].
Qed.

Lemma build_desired_fork (l : list ParentLink) (D : Desired) (p : nat) :
  build_desired no_desired l = Some D →
  default 0 (desired_fork_count D !! p) = fork_count l p.
Proof.
  intros (_ & _ & Hf)%build_desired_spec. rewrite Hf. simpl.
  by rewrite lookup_empty.
Qed.

(** ** Fork entries *)

Lemma keep_first_zero (child : nat) (forks : list (option nat)) :
  keep_first child 0 forks = other_forks child forks.
Proof.
  unfold other_forks. induction forks as [|fork rest IH]; simpl; [done|].
  rewrite filter_cons. case_decide; by rewrite IH.
Qed.

Lemma keep_first_others (child r : nat) (forks : list (option nat)) :
  other_forks child (keep_first child r forks) = other_forks child forks.
Proof.
  unfold other_forks. revert r.
  induction forks as [|fork rest IH]; intros r; simpl; [done|].
  rewrite (filter_cons _ fork rest).
  destruct (decide (fork ≠ Some child)) as [Hf|Hf].
  - rewrite filter_cons, decide_True by done. by rewrite IH.
  - destruct r as [|r]; [by rewrite IH|].
    rewrite filter_cons, decide_False by done. by rewrite IH.
Qed.

Lemma keep_first_split (child r : nat) (forks : list (option nat)) :
  r ≤ targets_child child forks →
  ∃ l1 l2, forks = l1 ++ l2 ∧ targets_child child l1 = r
           ∧ keep_first child r forks = l1 ++ other_forks child l2.
Proof.
  unfold targets_child. revert r.
  induction forks as [|fork rest IH]; intros r; simpl.
  - intros Hr. exists [], []. split_and!; [done| |done]. simpl. lia.
  - rewrite filter_cons.
    destruct (decide (fork = Some child)) as [Hf|Hf]; simpl; intros Hr.
    + subst fork. rewrite decide_False by (by intros ?).
      destruct r as [|r].
      * exists [], (Some child :: rest). split_and!; [done|done|].
        rewrite keep_first_zero. unfold other_forks.
        by rewrite filter_cons, decide_False by (by intros ?).
      * destruct (IH r) as (l1 & l2 & -> & Hc & ->); [lia|].
        exists (Some child :: l1), l2. split_and!; [done| |done].
        rewrite filter_cons, decide_True by done. simpl. by rewrite Hc.
    + rewrite decide_True by done.
      destruct (IH r Hr) as (l1 & l2 & -> & Hc & ->).
      exists (fork :: l1), l2. split_and!; [done| |done].
      by rewrite filter_cons, decide_False by done.
Qed.

Lemma targets_child_app (child : nat) (l1 l2 : list (option nat)) :
  targets_child child (l1 ++ l2) = targets_child child l1 + targets_child child l2.
Proof. unfold targets_child. by rewrite filter_app, length_app. Qed.

Lemma targets_child_others (child : nat) (forks : list (option nat)) :
  targets_child child (other_forks child forks) = 0.
Proof.
  unfold targets_child, other_forks.
  induction forks as [|fork rest IH]; [done|].
  rewrite (filter_cons _ fork rest). case_decide; [|done].
  by rewrite filter_cons, decide_False.
Qed.

Lemma targets_child_replicate (child n : nat) :
  targets_child child (replicate n (Some child)) = n.
Proof.
  unfold targets_child. induction n as [|n IH]; [done|]. simpl.
  rewrite filter_cons, decide_True by done. simpl. by rewrite IH.
Qed.

Lemma other_forks_app (child : nat) (l1 l2 : list (option nat)) :
  other_forks child (l1 ++ l2) = other_forks child l1 ++ other_forks child l2.
Proof. unfold other_forks. by rewrite filter_app. Qed.

Lemma other_forks_replicate (child n : nat) :
  other_forks child (replicate n (Some child)) = [].
Proof.
  unfold other_forks. induction n as [|n IH]; [done|]. simpl.
  by rewrite filter_cons, decide_False by (by intros ?).
Qed.

(** What [reconcile_forks] does, case by case. *)
Lemma reconcile_forks_cases (child desired : nat) (forks : list (option nat)) :
  let current := targets_child child forks in
  let forks' := reconcile_forks child desired forks in
  (desired < current →
     ∃ l1 l2, forks = l1 ++ l2 ∧ targets_child child l1 = desired
              ∧ forks' = l1 ++ other_forks child l2) ∧
  (current < desired →
     forks' = forks ++ replicate (desired - current) (Some child)) ∧
  (desired = current → forks' = forks).
Proof.
  simpl. unfold reconcile_forks. fold (targets_child child forks).
  split_and!; intros Hc.
  - rewrite decide_True by done. apply keep_first_split. lia.
  - rewrite decide_False, decide_True by lia. done.
  - rewrite !decide_False by lia. done.
Qed.

Lemma reconcile_forks_count (child desired : nat) (forks : list (option nat)) :
  targets_child child (reconcile_forks child desired forks) = desired.
Proof.
  destruct (reconcile_forks_cases child desired forks) as (Hlt & Hgt & Heq).
  destruct (lt_eq_lt_dec desired (targets_child child forks)) as [[H|H]|H].
  - destruct (Hlt H) as (l1 & l2 & _ & Hc & ->).
    rewrite targets_child_app, targets_child_others. lia.
  - by rewrite Heq.
  - rewrite Hgt, targets_child_app, targets_child_replicate by done. lia.
Qed.

Lemma reconcile_forks_others (child desired : nat) (forks : list (option nat)) :
  other_forks child (reconcile_forks child desired forks) = other_forks child forks.
Proof.
  unfold reconcile_forks. fold (targets_child child forks).
  repeat case_decide.
  - apply keep_first_others.
  - rewrite other_forks_app, other_forks_replicate. apply app_nil_r.
  - done.
Qed.

Lemma reconcile_forks_settled (child desired : nat) (forks : list (option nat)) :
  targets_child child forks = desired →
  reconcile_forks child desired forks = forks.
Proof.
  intros H. by apply (reconcile_forks_cases child desired forks).
Qed.

(** ** Switch cases *)

Lemma filter_ext_in {A} (P Q : A → Prop) `{∀ x, Decision (P x)}
    `{∀ x, Decision (Q x)} (l : list A) :
  (∀ x, x ∈ l → P x ↔ Q x) → filter P l = filter Q l.
Proof.
  induction l as [|x l IH]; intros Hl; [done|].
  rewrite !filter_cons. rewrite IH by (intros y ?; apply Hl; by right).
  destruct (decide (P x)) as [HP|HP], (decide (Q x)) as [HQ|HQ]; try done.
  - exfalso. apply HQ, Hl; [left|done].
  - exfalso. apply HP, Hl; [left|done].
Qed.

Lemma filter_all {A} (P : A → Prop) `{∀ x, Decision (P x)} (l : list A) :
  (∀ x, x ∈ l → P x) → filter P l = l.
Proof.
  induction l as [|x l IH]; intros Hl; [done|].
  rewrite filter_cons, decide_True by (apply Hl; left).
  rewrite IH; [done|]. intros y ?. apply Hl. by right.
Qed.

Lemma filter_none {A} (l : list A) : filter (λ _ : A, False) l = [].
Proof.
  induction l as [|x l IH]; [done|].
  rewrite filter_cons. destruct (decide False); [done|exact IH].
Qed.

Lemma wf_filter (P : Z * option nat → Prop) `{∀ x, Decision (P x)}
    (cs : list (Z * option nat)) :
  PyDict.wf cs → PyDict.wf (filter P cs).
Proof.
  unfold PyDict.wf, PyDict.keys. intros Hnd.
  eapply sublist_NoDup; [done|]. apply fmap_sublist, sublist_filter.
Qed.

Lemma del_others (child : nat) (cs : list (Z * option nat)) (k : Z) :
  PyDict.get cs k = Some (Some child) →
  other_cases child (PyDict.del cs k) = other_cases child cs.
Proof.
  unfold other_cases. induction cs as [|[k' t] cs IH]; simpl; [done|].
  destruct (decide (k' = k)) as [->|Hne].
  - intros [= ->]. by rewrite filter_cons, decide_False by (by intros ?).
  - intros Hg. rewrite !filter_cons, IH by done. done.
Qed.

Lemma del_filter (cs : list (Z * option nat)) (k : Z) :
  PyDict.wf cs → PyDict.del cs k = filter (λ kv, kv.1 ≠ k) cs.
Proof.
  induction cs as [|[k' t] cs IH]; simpl; [done|].
  rewrite PyDictFacts.wf_cons. intros [Hk Hwf]. rewrite filter_cons. simpl.
  destruct (decide (k' = k)) as [->|Hne].
  - rewrite decide_False by (by intros ?). symmetry. apply filter_all.
    intros [k' t'] Hin Heq. simpl in Heq. subst k'. apply Hk.
    apply list_elem_of_fmap. by exists (k, t').
  - rewrite decide_True by done. by rewrite IH.
Qed.

Lemma remove_undesired_others (child : nat) (D : gset Z)
    (cs : list (Z * option nat)) :
  other_cases child (remove_undesired child D cs) = other_cases child cs.
Proof.
  unfold remove_undesired. generalize (PyDict.keys cs) as ks. intros ks.
  revert cs. induction ks as [|k ks IH]; intros cs; simpl; [done|].
  rewrite IH. case_decide as Hc; [|done]. apply del_others, Hc.
Qed.

Lemma remove_undesired_settled (child : nat) (D : gset Z)
    (cs : list (Z * option nat)) :
  (∀ v, (v, Some child) ∈ cs → v ∈ D) → remove_undesired child D cs = cs.
Proof.
  intros Hcs. unfold remove_undesired. generalize (PyDict.keys cs) as ks.
  intros ks. induction ks as [|k ks IH]; simpl; [done|].
  rewrite decide_False; [done|]. intros [Hg Hn]. apply Hn, Hcs.
  by apply PyDictFacts.get_Some_elem.
Qed.

Lemma remove_undesired_filter (child : nat) (D : gset Z)
    (cs : list (Z * option nat)) :
  PyDict.wf cs →
  remove_undesired child D cs
  = filter (λ kv, ¬ (kv.2 = Some child ∧ kv.1 ∉ D)) cs.
Proof.
  intros Hwf. unfold remove_undesired.
  assert (∀ ks cs, PyDict.wf cs →
    foldl (λ cs value,
             if decide (PyDict.get cs value = Some (Some child) ∧ value ∉ D)
             then PyDict.del cs value else cs) cs ks
    = filter (λ kv, ¬ (kv.1 ∈ ks ∧ kv.2 = Some child ∧ kv.1 ∉ D)) cs) as Hgen.
  { clear cs Hwf. induction ks as [|k ks IH]; intros cs Hwf; simpl.
    - symmetry. apply filter_all. intros kv _ [[]%elem_of_nil _].
    - assert ((if decide (PyDict.get cs k = Some (Some child) ∧ k ∉ D)
               then PyDict.del cs k else cs)
              = filter (λ kv, ¬ (kv.1 = k ∧ kv.2 = Some child ∧ kv.1 ∉ D)) cs)
        as ->.
      { case_decide as Hc.
        - rewrite del_filter by done. apply filter_ext_in.
          intros [k' t] Hin. simpl. split; [by intros ? [? _]|].
          intros Hn ->. apply Hn. split_and!; [done| |by destruct Hc].
          destruct Hc as [Hg _].
          rewrite (PyDictFacts.elem_get _ _ _ Hwf Hin) in Hg. congruence.
        - symmetry. apply filter_all. intros [k' t] Hin. simpl.
          intros (-> & -> & Hn). apply Hc. split; [|done].
          by apply PyDictFacts.elem_get. }
      rewrite IH by (by apply wf_filter). rewrite list_filter_filter.
      apply list_filter_iff. intros [k' t]. simpl.
      rewrite elem_of_cons. split.
      + intros [H1 H2] [[->|Hin] [? ?]]; [by apply H2|by apply H1].
      + intros Hn. split.
        * intros (? & ? & ?). apply Hn. split_and!; [by right|done|done].
        * intros (? & ? & ?). apply Hn. split_and!; [by left|done|done]. }
  rewrite Hgen by done. apply filter_ext_in. intros [k t] Hin. simpl.
  split.
  - intros Hn [? ?]. apply Hn. split_and!; [|done|done].
    apply list_elem_of_fmap. by exists (k, t).
  - intros Hn (_ & ? & ?). by apply Hn.
Qed.

Lemma add_desired_cases_others (child : nat) (vs : list Z)
    (cs : list (Z * option nat)) :
  other_cases child (add_desired_cases child vs cs).2 = other_cases child cs.
Proof.
  revert cs. induction vs as [|v vs IH]; intros cs; simpl; [done|].
  destruct (PyDict.contains cs v) eqn:Ec; simpl.
  - case_bool_decide; simpl; [done|apply IH].
  - rewrite IH. apply PyDictFacts.contains_false in Ec.
    rewrite PyDictFacts.set_absent by done. unfold other_cases.
    rewrite filter_app, filter_cons, decide_False by (by intros ?).
    apply app_nil_r.
Qed.

Lemma add_desired_cases_settled (child : nat) (vs : list Z)
    (cs : list (Z * option nat)) :
  PyDict.wf cs → (∀ v, v ∈ vs → (v, Some child) ∈ cs) →
  add_desired_cases child vs cs = (None, cs).
Proof.
  intros Hwf. induction vs as [|v vs IH]; intros Hvs; simpl; [done|].
  assert (PyDict.get cs v = Some (Some child)) as Hg.
  { apply PyDictFacts.elem_get; [done|]. apply Hvs. left. }
  unfold PyDict.contains. rewrite Hg.
  rewrite bool_decide_true by eauto. simpl.
  rewrite bool_decide_false by (by intros ?). simpl.
  apply IH. intros w ?. apply Hvs. by right.
Qed.

(** With no value bound to another event the insertion loop runs to its
    end, and adds a case for the child at each absent value. *)
Lemma add_desired_cases_ok (child : nat) (vs : list Z)
    (cs : list (Z * option nat)) :
  PyDict.wf cs →
  (∀ v, v ∈ vs →
        PyDict.get cs v = None ∨ PyDict.get cs v = Some (Some child)) →
  ∃ cs', add_desired_cases child vs cs = (None, cs') ∧ PyDict.wf cs' ∧
    ∀ k t, (k, t) ∈ cs' ↔
           (k, t) ∈ cs ∨ (k ∈ vs ∧ (k ∉ PyDict.keys cs) ∧ t = Some child).
Proof.
  revert cs. induction vs as [|v vs IH]; intros cs Hwf Hvs; simpl.
  - exists cs. split_and!; [done|done|]. intros k t. split; [by left|].
    intros [?|([]%elem_of_nil & _)]; done.
  - destruct (Hvs v) as [Hg|Hg]; [left| |].
    + unfold PyDict.contains. rewrite Hg.
      rewrite bool_decide_false by (by intros [? ?]). simpl.
      apply PyDictFacts.get_None in Hg.
      rewrite PyDictFacts.set_absent by done.
      destruct (IH (cs ++ [(v, Some child)])) as (cs' & -> & Hwf' & Hin').
      { by apply PyDictFacts.wf_snoc. }
      { intros w Hw. destruct (decide (w = v)) as [->|Hne].
        - right. apply PyDictFacts.elem_get.
          + by apply PyDictFacts.wf_snoc.
          + apply elem_of_app. right. left.
        - destruct (Hvs w) as [Hgw|Hgw]; [by right| |].
          + left. apply PyDictFacts.get_None. apply PyDictFacts.get_None in Hgw.
            unfold PyDict.keys. rewrite fmap_app, elem_of_app. simpl.
            intros [?|?%list_elem_of_singleton]; done.
          + right. apply PyDictFacts.elem_get; [by apply PyDictFacts.wf_snoc|].
            apply elem_of_app. left. by apply PyDictFacts.get_Some_elem. }
      assert (∀ k, k ∈ PyDict.keys (cs ++ [(v, Some child)])
                   ↔ k ∈ PyDict.keys cs ∨ k = v) as Hkeys.
      { intros k. unfold PyDict.keys. rewrite fmap_app, elem_of_app. simpl.
        by rewrite list_elem_of_singleton. }
      exists cs'. split_and!; [done|done|]. intros k t. rewrite Hin'. split.
      * intros [Hin|(Hk1 & Hk2 & ->)].
        -- apply elem_of_app in Hin as [?|Hs]; [by left|].
           apply list_elem_of_singleton in Hs. injection Hs as -> ->.
           right. split_and!; [left|done|done].
        -- right. split_and!; [by right| |done].
           intros ?. apply Hk2, Hkeys. by left.
      * intros [?|(Hk1 & Hk2 & ->)].
        -- left. apply elem_of_app. by left.
        -- destruct (decide (k = v)) as [->|Hne].
           { left. apply elem_of_app. right. left. }
           apply elem_of_cons in Hk1 as [?|Hk1]; [done|].
           right. split_and!; [done| |done]. by intros [?|?]%Hkeys.
    + unfold PyDict.contains. rewrite Hg.
      rewrite bool_decide_true by eauto. simpl.
      rewrite bool_decide_false by (by intros ?). simpl.
      destruct (IH cs) as (cs' & -> & Hwf' & Hin'); [done| |].
      { intros w ?. apply Hvs. by right. }
      exists cs'. split_and!; [done|done|]. intros k t. rewrite Hin'.
      rewrite elem_of_cons. split.
      * intros [?|(? & ? & ?)]; [by left|]. right. split_and!; [by right|done|done].
      * intros [?|([->|?] & Hk & ->)]; [by left| |by right].
        exfalso. apply Hk. apply PyDictFacts.get_Some_elem in Hg.
        apply list_elem_of_fmap. by exists (v, Some child).
Qed.

(** ** The main loop *)

Lemma set_data_same (ev : Event) : set_data ev (data ev) = ev.
Proof. by destruct ev. Qed.

Lemma targets_child_zero (child : nat) (forks : list (option nat)) :
  Some child ∉ forks → targets_child child forks = 0.
Proof.
  intros Hni. unfold targets_child.
  destruct (filter _ forks) as [|x rest] eqn:E; [done|]. exfalso.
  assert (x ∈ filter (λ fork, fork = Some child) forks)
    as [-> Hin]%list_elem_of_filter by (rewrite E; left).
  done.
Qed.

Lemma sequential_with_nxt (d : EventData) (m : option nat) :
  is_Some (sequential_nxt d) → sequential_nxt (with_nxt d m) = Some m.
Proof. destruct d; simpl; try done; by intros [? ?]. Qed.

Lemma with_nxt_with_nxt (d : EventData) (a b : option nat) :
  with_nxt (with_nxt d a) b = with_nxt d b.
Proof. by destruct d. Qed.

Lemma others_untouched_refl (child : nat) (ev : Event) :
  others_untouched child ev ev.
Proof.
  split; [done|]. destruct (data ev) as [n|n|n|cs|fs|] eqn:E; eauto.
Qed.

Lemma others_untouched_trans (child : nat) (a b c : Event) :
  others_untouched child a b → others_untouched child b c →
  others_untouched child a c.
Proof.
  intros [Hn1 H1] [Hn2 H2]. split; [congruence|].
  destruct (data a) as [n|n|n|cs|fs|].
  - destruct H1 as [n1 H1]. rewrite H1 in H2. simpl in *. done.
  - destruct H1 as [n1 H1]. rewrite H1 in H2. simpl in *. done.
  - destruct H1 as [n1 H1]. rewrite H1 in H2. simpl in *. done.
  - destruct H1 as (cs1 & H1 & Hc1). rewrite H1 in H2.
    destruct H2 as (cs2 & H2 & Hc2). exists cs2. split; [done|congruence].
  - destruct H1 as (fs1 & H1 & Hf1). rewrite H1 in H2.
    destruct H2 as (fs2 & H2 & Hf2). exists fs2. split; [done|congruence].
  - rewrite H1 in H2. done.
Qed.

Section ReconcilerFacts.
Context (iter_events : gset nat → list nat).
Context (iter_values : gset Z → list Z).
Context (iter_events_members : lists_members iter_events).
Context (iter_values_members : lists_members iter_values).

Lemma iter_values_empty (X : gset Z) : (∀ v, v ∉ X) → iter_values X = [].
Proof.
  intros HX. destruct (iter_values X) as [|v vs] eqn:E; [done|].
  exfalso. apply (HX v), iter_values_members. rewrite E. left.
Qed.

Lemma reconcile_event_others (D : Desired) (child e : nat) (ev : Event) :
  others_untouched child ev (reconcile_event iter_values D child e ev).2.
Proof.
  unfold reconcile_event, reconcile_next.
  destruct (data ev) as [n|n|n|cs|fs|] eqn:E; simpl;
    try (split; [done|]; rewrite E; simpl;
         repeat case_decide; simpl; eauto; fail).
  - split; [done|]. rewrite E. eexists. split; [done|].
    rewrite add_desired_cases_others. apply remove_undesired_others.
  - split; [done|]. rewrite E. eexists. split; [done|].
    apply reconcile_forks_others.
Qed.

(** An event without desired links and without link into the child
    comes out of the loop body as it went in. *)
Lemma reconcile_event_unlinked (D : Desired) (child e : nat) (ev : Event) :
  e ∉ desired_next D →
  (∀ v, v ∉ default ∅ (desired_switch D !! e)) →
  default 0 (desired_fork_count D !! e) = 0 →
  ¬ linked_to child (data ev) →
  reconcile_event iter_values D child e ev = (None, ev).
Proof.
  intros Hn Hs Hf Hl. unfold reconcile_event, reconcile_next.
  destruct (data ev) as [n|n|n|cs|fs|] eqn:E; simpl in *;
    try (rewrite !decide_False by done; by rewrite <- E, set_data_same).
  - rewrite iter_values_empty by done. simpl.
    rewrite remove_undesired_settled.
    + by rewrite <- E, set_data_same.
    + intros v Hin. exfalso. apply Hl. by exists v.
  - rewrite Hf, reconcile_forks_settled.
    + by rewrite <- E, set_data_same.
    + by apply targets_child_zero.
  - done.
Qed.

Lemma apply_events_absent (D : Desired) (child : nat) (es : list nat)
    (h : gmap nat Event) (e : nat) :
  h !! e = None → (apply_events iter_values D child es h).2 !! e = None.
Proof.
  revert h. induction es as [|a es IH]; intros h He; simpl; [done|].
  destruct (h !! a) as [eva|] eqn:Ea; [|by apply IH].
  assert (a ≠ e) by congruence.
  destruct (reconcile_event iter_values D child a eva).1; simpl.
  - by rewrite lookup_insert_ne.
  - apply IH. by rewrite lookup_insert_ne.
Qed.

(** A relation that every run of the loop body respects holds between
    the record of an event before the loop and after it, wherever the
    loop stops. *)
Lemma apply_events_inv (D : Desired) (child : nat)
    (R : nat → Event → Event → Prop) :
  (∀ e ev, R e ev ev) →
  (∀ e a b c, R e a b → R e b c → R e a c) →
  (∀ e ev, R e ev (reconcile_event iter_values D child e ev).2) →
  ∀ es h e ev, h !! e = Some ev →
    ∃ ev', (apply_events iter_values D child es h).2 !! e = Some ev'
           ∧ R e ev ev'.
Proof.
  intros Hrefl Htrans Hstep es.
  induction es as [|a es IH]; intros h e ev He; simpl; [by exists ev|].
  destruct (h !! a) as [eva|] eqn:Ea; [|by apply IH].
  destruct (decide (a = e)) as [->|Hne].
  - assert (eva = ev) as -> by congruence.
    destruct (reconcile_event iter_values D child e ev).1; simpl.
    + eexists. rewrite lookup_insert_eq. split; [done|apply Hstep].
    + edestruct IH as (ev' & Hev' & HR); [apply lookup_insert_eq|].
      exists ev'. split; [done|]. eapply Htrans; [apply Hstep|done].
  - destruct (reconcile_event iter_values D child a eva).1; simpl.
    + exists ev. by rewrite lookup_insert_ne.
    + apply IH. by rewrite lookup_insert_ne.
Qed.

(** On a run of the loop to its end, an event whose loop body is the
    idempotent update [f] ends as [f] of its record if it is in the
    list, and unchanged otherwise, however often it is listed. *)
Lemma apply_events_visit (D : Desired) (child e : nat)
    (Q : Event → Prop) (f : Event → Event) :
  (∀ x, Q x → reconcile_event iter_values D child e x = (None, f x)
              ∧ Q (f x) ∧ f (f x) = f x) →
  ∀ es h h' ev, h !! e = Some ev → Q ev →
    apply_events iter_values D child es h = (Applied, h') →
    h' !! e = Some (if decide (e ∈ es) then f ev else ev).
Proof.
  intros Hf es. induction es as [|a es IH]; intros h h' ev He HQ; simpl.
  - intros [= <-]. done.
  - destruct (h !! a) as [eva|] eqn:Ea.
    + destruct (decide (a = e)) as [->|Hne].
      * assert (eva = ev) as -> by congruence.
        destruct (Hf ev HQ) as (-> & HQ' & Hff). simpl. intros Hrun.
        rewrite (IH _ _ (f ev) (lookup_insert_eq _ _ _) HQ' Hrun).
        rewrite Hff. rewrite (decide_True (P := e ∈ e :: es)) by left.
        by case_decide.
      * destruct (reconcile_event iter_values D child a eva).1; [done|].
        intros Hrun.
        rewrite (IH _ h' ev ltac:(by rewrite lookup_insert_ne) HQ Hrun).
        destruct (decide (e ∈ es)) as [Hin|Hni].
        -- by rewrite decide_True by (by right).
        -- rewrite decide_False; [done|].
           intros [?|?]%elem_of_cons; done.
    + assert (a ≠ e) by congruence. intros Hrun.
      rewrite (IH _ _ ev He HQ Hrun).
      destruct (decide (e ∈ es)) as [Hin|Hni].
      * by rewrite decide_True by (by right).
      * rewrite decide_False; [done|]. intros [?|?]%elem_of_cons; done.
Qed.

Lemma reconcile_event_sequential (D : Desired) (child e : nat) (x : Event)
    (n : option nat) :
  sequential_nxt (data x) = Some n →
  reconcile_event iter_values D child e x
  = (None, set_data x (with_nxt (data x)
             (if decide (e ∈ desired_next D) then Some child
              else if decide (n = Some child) then None else n))).
Proof.
  unfold reconcile_event, reconcile_next.
  destruct (data x); simpl; try done; intros [= ->];
    repeat case_decide; done.
Qed.

Lemma reconcile_event_fork (D : Desired) (child e : nat) (x : Event)
    (forks : list (option nat)) :
  data x = ForkEvent forks →
  reconcile_event iter_values D child e x
  = (None, set_data x (ForkEvent
             (reconcile_forks child
                (default 0 (desired_fork_count D !! e)) forks))).
Proof. unfold reconcile_event. by intros ->. Qed.

(** The outcomes of [_applyChanges]: it stops before the loop with the
    store as it was, or it runs the loop with the lookups of the model. *)
Lemma applyChanges_cases (answer : bool) (dlg : EditParentsDialog)
    (h : gmap nat Event) :
  let r := _applyChanges iter_events iter_values answer dlg h in
  (r.1 ≠ Applied ∧ r.2 = h) ∨
  ∃ f fc D,
    flow (flow_data dlg) = Some f ∧ flowchart f = Some fc
    ∧ isValid (model dlg) = true
    ∧ build_desired no_desired (model dlg) = Some D
    ∧ (answer = true ∨ to_overwrite iter_events h (child_event dlg) D = [])
    ∧ r = apply_events iter_values D (child_event dlg) (events fc) h.
Proof.
  simpl. unfold _applyChanges.
  destruct (flow (flow_data dlg)) as [f|] eqn:Ef; [|by left].
  destruct (flowchart f) as [fc|] eqn:Efc; [|by left].
  destruct (isValid (model dlg)) eqn:Ev; simpl; [|by left].
  destruct (build_desired no_desired (model dlg)) as [D|] eqn:ED; [|by left].
  destruct (bool_decide _ && negb answer) eqn:Eq; [by left|].
  right. exists f, fc, D. split_and!; try done.
  apply andb_false_iff in Eq as [Eq|Eq].
  - right. apply bool_decide_eq_false in Eq.
    by destruct (to_overwrite iter_events h (child_event dlg) D);
      [|exfalso; apply Eq].
  - left. by destruct answer.
Qed.
End ReconcilerFacts.

(** * The claims *)

Section Claims.
Context (iter_events : gset nat → list nat).
Context (iter_values : gset Z → list Z).
Context (iter_events_members : lists_members iter_events).
Context (iter_values_members : lists_members iter_values).

Lemma to_overwrite_member (dlg : EditParentsDialog) (h : gmap nat Event)
    (D : Desired) (pl : ParentLink) (ev : Event) (x : nat) :
  build_desired no_desired (model dlg) = Some D →
  pl ∈ model dlg → link_type pl = Next →
  h !! parent pl = Some ev → sequential_nxt (data ev) = Some (Some x) →
  x ≠ child_event dlg →
  parent pl ∈ to_overwrite iter_events h (child_event dlg) D.
Proof.
  intros HD Hin Hty Hev Hn Hx. unfold to_overwrite.
  apply list_elem_of_filter. split.
  - unfold needs_overwrite. rewrite Hev, Hn. by apply bool_decide_pack.
  - apply iter_events_members. rewrite (build_desired_next _ _ _ HD).
    by exists pl.
Qed.

(** C3: when two entries of the desired list are switch cases of one
    parent with one value, [_applyChanges] returns [False] and the store
    of events is the one before the call; with a flowchart loaded the
    failure is the validation error. *)
Theorem duplicate_switch_case_rejected (answer : bool)
    (dlg : EditParentsDialog) (h : gmap nat Event)
    (l1 l2 l3 : list ParentLink) (pl1 pl2 : ParentLink) :
  model dlg = l1 ++ pl1 :: l2 ++ pl2 :: l3 →
  link_type pl1 = SwitchCase → link_type pl2 = SwitchCase →
  parent pl1 = parent pl2 → detail pl1 = detail pl2 →
  let r := _applyChanges iter_events iter_values answer dlg h in
  returns_true r.1 = false ∧ r.2 = h ∧
  (∀ f fc, flow (flow_data dlg) = Some f → flowchart f = Some fc →
           r.1 = InvalidData).
Proof.
  intros Hm Ht1 Ht2 Hp Hd. simpl.
  pose proof (isValid_repeated_case l1 l2 l3 pl1 pl2 Ht1 Ht2 Hp Hd) as Hv.
  rewrite <- Hm in Hv. unfold _applyChanges. rewrite Hv. simpl.
  destruct (flow (flow_data dlg)) as [f|]; simpl.
  - destruct (flowchart f) as [fc|] eqn:Efc; simpl.
    + split_and!; [done|done|]. intros f' fc' [= <-]. by rewrite Efc.
    + split_and!; [done|done|]. intros f' fc' [= <-]. by rewrite Efc.
  - split_and!; [done|done|]. by intros f fc.
Qed.

(** C7: when a desired [Next] link names a sequential parent whose
    next pointer is set to an event other than the child and the user
    declines the overwrite question, [_applyChanges] returns [False]
    and the store of events is the one before the call; on a valid
    model the failure is the declined question, which lists that
    parent. *)
Theorem declined_overwrite_aborts (dlg : EditParentsDialog)
    (h : gmap nat Event) (pl : ParentLink) (ev : Event) (x : nat) :
  pl ∈ model dlg → link_type pl = Next →
  h !! parent pl = Some ev → sequential_nxt (data ev) = Some (Some x) →
  x ≠ child_event dlg →
  let r := _applyChanges iter_events iter_values false dlg h in
  returns_true r.1 = false ∧ r.2 = h ∧
  (∀ f fc D, flow (flow_data dlg) = Some f → flowchart f = Some fc →
             isValid (model dlg) = true →
             build_desired no_desired (model dlg) = Some D →
             ∃ ov, r.1 = OverwriteDeclined ov ∧ parent pl ∈ ov).
Proof.
  intros Hin Hty Hev Hn Hx. simpl.
  assert (∀ D, build_desired no_desired (model dlg) = Some D →
               to_overwrite iter_events h (child_event dlg) D ≠ []) as Hov.
  { intros D HD Hnil.
    pose proof (to_overwrite_member dlg h D pl ev x HD Hin Hty Hev Hn Hx) as Hm.
    rewrite Hnil in Hm. by apply elem_of_nil in Hm. }
  split_and!.
  - destruct (applyChanges_cases iter_events iter_values false dlg h)
      as [[Hne _]|(f & fc & D & _ & _ & _ & HD & [?|Hnil] & _)].
    + by apply bool_decide_eq_false.
    + done.
    + by apply Hov in Hnil.
  - destruct (applyChanges_cases iter_events iter_values false dlg h)
      as [[_ Hh]|(f & fc & D & _ & _ & _ & HD & [?|Hnil] & _)].
    + done.
    + done.
    + by apply Hov in Hnil.
  - intros f fc D Hf Hfc Hv HD. unfold _applyChanges.
    rewrite Hf, Hfc, Hv, HD. simpl.
    rewrite bool_decide_true by (by apply Hov). simpl. eexists.
    split; [done|]. by eapply to_overwrite_member.
Qed.

(** C5: after a successful [_applyChanges], a sequential event [e] of
    the flowchart is found in the store with its next pointer set to the
    child if the desired list has a [Next] link for [e]; otherwise the
    pointer is cleared if it was the child, and is the one before the
    call if it was not.  The record read back has the name and the kind
    of payload it had. *)
Theorem sequential_parent_update (answer : bool) (dlg : EditParentsDialog)
    (h h' : gmap nat Event) (f : EventFlow) (fc : Flowchart)
    (e : nat) (ev : Event) (n : option nat) :
  _applyChanges iter_events iter_values answer dlg h = (Applied, h') →
  flow (flow_data dlg) = Some f → flowchart f = Some fc →
  e ∈ events fc → h !! e = Some ev → sequential_nxt (data ev) = Some n →
  let wantNext := ∃ pl, pl ∈ model dlg ∧ link_type pl = Next ∧ parent pl = e in
  ∃ ev' n', h' !! e = Some ev' ∧ name ev' = name ev ∧
        sequential_nxt (data ev') = Some n' ∧
        (∀ m, data ev = ActionEvent m → data ev' = ActionEvent n') ∧
        (∀ m, data ev = JoinEvent m → data ev' = JoinEvent n') ∧
        (∀ m, data ev = SubFlowEvent m → data ev' = SubFlowEvent n') ∧
        (wantNext → n' = Some (child_event dlg)) ∧
        (¬ wantNext → n = Some (child_event dlg) → n' = None) ∧
        (¬ wantNext → n ≠ Some (child_event dlg) → n' = n).
Proof.
  intros Hrun Hf Hfc He Hev Hn. simpl.
  destruct (applyChanges_cases iter_events iter_values answer dlg h)
    as [[Hne _]|(f' & fc' & D & Hf' & Hfc' & _ & HD & _ & Hr)].
  { simpl in Hne. by rewrite Hrun in Hne. }
  simpl in Hr. rewrite Hrun in Hr.
  assert (fc' = fc) as -> by congruence. clear f' Hf' Hfc'.
  set (child := child_event dlg) in *.
  set (g := λ m : option nat,
              if decide (e ∈ desired_next D) then Some child
              else if decide (m = Some child) then None else m).
  set (Q := λ x : Event, sequential_nxt (data x) = Some n
                         ∨ sequential_nxt (data x) = Some (g n)).
  set (upd := λ x : Event, set_data x (with_nxt (data x) (g n))).
  assert (g (g n) = g n) as Hgg.
  { unfold g. repeat case_decide; congruence. }
  assert (∀ x, Q x → reconcile_event iter_values D child e x = (None, upd x)
                     ∧ Q (upd x) ∧ upd (upd x) = upd x) as Hstep.
  { intros x HQ. split_and!.
    - destruct HQ as [HQ|HQ];
        rewrite (reconcile_event_sequential _ _ _ _ _ _ HQ);
        unfold upd; f_equal; f_equal; f_equal;
        first [reflexivity | exact Hgg].
    - right. unfold upd. simpl. apply sequential_with_nxt.
      destruct HQ as [HQ|HQ]; rewrite HQ; by eexists.
    - unfold upd, set_data. simpl. by rewrite with_nxt_with_nxt. }
  assert (Q ev) as HQ by (by left).
  pose proof (apply_events_visit iter_values D child e Q upd Hstep
                (events fc) h h' ev Hev HQ (eq_sym Hr)) as Hlook.
  rewrite decide_True in Hlook by done.
  exists (upd ev), (g n). split; [done|]. split; [done|].
  split; [unfold upd; simpl; apply sequential_with_nxt; by eexists|].
  split; [by intros m Hm; unfold upd; simpl; rewrite Hm|].
  split; [by intros m Hm; unfold upd; simpl; rewrite Hm|].
  split; [by intros m Hm; unfold upd; simpl; rewrite Hm|].
  pose proof (build_desired_next (model dlg) D e HD) as Hnext.
  unfold g. split_and!.
  - intros Hw. by rewrite decide_True by (by apply Hnext).
  - intros Hw Hc. rewrite decide_False by (by rewrite Hnext).
    by rewrite decide_True.
  - intros Hw Hc. rewrite decide_False by (by rewrite Hnext).
    by rewrite decide_False.
Qed.

(** C6: after a successful [_applyChanges], a fork event [e] of the
    flowchart, with [desiredCount] desired [ForkBranch] links and
    [currentCount] entries for the child, is found in the store under
    its name with these branches: if
    [desiredCount < currentCount], the old sequence splits into a prefix
    holding exactly [desiredCount] entries for the child, kept whole, and
    a rest from which exactly the entries for the child are dropped; if
    [desiredCount > currentCount], the old sequence followed by
    [desiredCount - currentCount] new entries for the child; if the
    counts agree, the old sequence. *)
Theorem fork_parent_update (answer : bool) (dlg : EditParentsDialog)
    (h h' : gmap nat Event) (f : EventFlow) (fc : Flowchart)
    (e : nat) (ev : Event) (forks : list (option nat)) :
  _applyChanges iter_events iter_values answer dlg h = (Applied, h') →
  flow (flow_data dlg) = Some f → flowchart f = Some fc →
  e ∈ events fc → h !! e = Some ev → data ev = ForkEvent forks →
  let child := child_event dlg in
  let desiredCount := fork_count (model dlg) e in
  let currentCount := targets_child child forks in
  ∃ ev' forks', h' !! e = Some ev' ∧ name ev' = name ev ∧
    data ev' = ForkEvent forks' ∧
    (desiredCount < currentCount →
       ∃ l1 l2, forks = l1 ++ l2 ∧ targets_child child l1 = desiredCount
                ∧ forks' = l1 ++ other_forks child l2) ∧
    (currentCount < desiredCount →
       forks' = forks ++ replicate (desiredCount - currentCount) (Some child)) ∧
    (desiredCount = currentCount → forks' = forks).
Proof.
  intros Hrun Hf Hfc He Hev Hdata. simpl.
  destruct (applyChanges_cases iter_events iter_values answer dlg h)
    as [[Hne _]|(f' & fc' & D & Hf' & Hfc' & _ & HD & _ & Hr)].
  { simpl in Hne. by rewrite Hrun in Hne. }
  simpl in Hr. rewrite Hrun in Hr.
  assert (fc' = fc) as -> by congruence. clear f' Hf' Hfc'.
  set (child := child_event dlg) in *.
  set (d := default 0 (desired_fork_count D !! e)).
  set (forks_of := λ x : Event,
         match data x with ForkEvent fs => fs | _ => [] end).
  set (Q := λ x : Event, ∃ fs, data x = ForkEvent fs).
  set (upd := λ x : Event,
         set_data x (ForkEvent (reconcile_forks child d (forks_of x)))).
  assert (∀ x, Q x → reconcile_event iter_values D child e x = (None, upd x)
                     ∧ Q (upd x) ∧ upd (upd x) = upd x) as Hstep.
  { intros x [fs Hx]. split_and!.
    - rewrite (reconcile_event_fork _ _ _ _ _ _ Hx). unfold upd, forks_of.
      by rewrite Hx.
    - by eexists.
    - unfold upd, forks_of, set_data. simpl. rewrite Hx.
      rewrite (reconcile_forks_settled child d (reconcile_forks child d fs));
        [done|apply reconcile_forks_count]. }
  pose proof (apply_events_visit iter_values D child e Q upd Hstep
                (events fc) h h' ev Hev (ex_intro _ forks Hdata) (eq_sym Hr))
    as Hlook.
  rewrite decide_True in Hlook by done.
  unfold upd, forks_of in Hlook. rewrite Hdata in Hlook.
  eexists _, (reconcile_forks child d forks).
  split; [exact Hlook|]. split; [done|]. split; [done|].
  unfold d. rewrite (build_desired_fork (model dlg) D e HD).
  apply reconcile_forks_cases.
Qed.

(** C9: whatever the outcome of [_applyChanges], an event that is the
    parent of no desired link and has no link into the child keeps its
    record; and every event of the store keeps its name, its kind of
    payload, and its switch cases and fork entries for events other than
    the child, in their order. *)
Theorem frame_condition (answer : bool) (dlg : EditParentsDialog)
    (h : gmap nat Event) :
  let r := _applyChanges iter_events iter_values answer dlg h in
  let child := child_event dlg in
  (∀ e, (∀ pl, pl ∈ model dlg → parent pl ≠ e) →
        (∀ ev, h !! e = Some ev → ¬ linked_to child (data ev)) →
        r.2 !! e = h !! e) ∧
  (∀ e ev, h !! e = Some ev →
           ∃ ev', r.2 !! e = Some ev' ∧ others_untouched child ev ev').
Proof.
  simpl.
  destruct (applyChanges_cases iter_events iter_values answer dlg h)
    as [[_ Hh]|(f & fc & D & _ & _ & _ & HD & _ & Hr)]; simpl in *.
  { rewrite Hh. split; [done|]. intros e ev Hev. exists ev.
    split; [done|apply others_untouched_refl]. }
  rewrite Hr. clear Hr. set (child := child_event dlg). split.
  - intros e Hpar Hlink. destruct (h !! e) as [ev|] eqn:Hev.
    + assert (reconcile_event iter_values D child e ev = (None, ev)) as Hfix.
      { apply reconcile_event_unlinked; [done| | | |by apply Hlink].
        - rewrite (build_desired_next _ _ _ HD).
          intros (pl & Hin & _ & Hp). by apply (Hpar pl).
        - intros v. rewrite (build_desired_switch _ _ _ _ HD).
          intros (pl & Hin & _ & Hp & _). by apply (Hpar pl).
        - rewrite (build_desired_fork _ _ _ HD). unfold fork_count.
          rewrite (filter_ext_in _ (λ _, False)).
          + by rewrite filter_none.
          + intros pl Hin. split; [|done]. intros [_ Hp]. by apply (Hpar pl). }
      destruct (apply_events_inv iter_values D child
                  (λ e' a b, e' = e → a = ev → b = ev)) with
        (es := events fc) (h := h) (e := e) (ev := ev)
        as (ev' & Hev' & HR); [done| | |done|].
      * intros e' a b c Hab Hbc -> ->. apply Hbc; [done|]. by apply Hab.
      * intros e' x -> ->. by rewrite Hfix.
      * rewrite Hev'. f_equal. by apply HR.
    + by apply apply_events_absent.
  - intros e ev Hev.
    apply (apply_events_inv iter_values D child
             (λ _, others_untouched child)); [| | |done].
    + intros _ x. apply others_untouched_refl.
    + intros _ a b c. apply others_untouched_trans.
    + intros e' x. apply reconcile_event_others.
Qed.
End Claims.

(** ** The scan *)

Lemma omap_cons {A B} (f : A → option B) (x : A) (l : list A) :
  omap f (x :: l)
  = match f x with Some y => y :: omap f l | None => omap f l end.
Proof. done. Qed.

Lemma elem_of_links_of (child e : nat) (d : EventData) (pl : ParentLink) :
  pl ∈ links_of child e d ↔
  match d with
  | ActionEvent n | JoinEvent n | SubFlowEvent n =>
      n = Some child ∧ pl = mkParentLink e Next None
  | SwitchEvent cases =>
      ∃ v, (v, Some child) ∈ cases ∧ pl = mkParentLink e SwitchCase (Some v)
  | ForkEvent forks =>
      Some child ∈ forks ∧ pl = mkParentLink e ForkBranch None
  | NoData => False
  end.
Proof.
  destruct d as [n|n|n|cs|fs|]; simpl;
    try (case_decide; [rewrite list_elem_of_singleton|rewrite elem_of_nil];
         split; [intros ->; done|intros [_ ->]; done|done|intros [? _]; done]).
  - rewrite list_elem_of_omap. split.
    + intros ([k t] & Hin & Hf). simpl in Hf. case_decide; [|done].
      simplify_eq/=. by exists k.
    + intros (v & Hin & ->). exists (v, Some child). split; [done|].
      simpl. by rewrite decide_True.
  - rewrite list_elem_of_omap. split.
    + intros (fork & Hin & Hf). case_decide; [|done]. simplify_eq/=. done.
    + intros [Hin ->]. exists (Some child). split; [done|].
      by rewrite decide_True.
  - apply elem_of_nil.
Qed.

Lemma links_of_parent (child e : nat) (d : EventData) (pl : ParentLink) :
  pl ∈ links_of child e d → parent pl = e.
Proof.
  rewrite elem_of_links_of.
  destruct d; [intros [_ ->]|intros [_ ->]|intros [_ ->]
              |intros (? & _ & ->)|intros [_ ->]|]; done.
Qed.

Lemma elem_of_links_from (h : gmap nat Event) (child e : nat) (pl : ParentLink) :
  pl ∈ links_from h child e ↔
  ∃ ev, h !! e = Some ev ∧ pl ∈ links_of child e (data ev).
Proof.
  unfold links_from. destruct (h !! e) as [ev|].
  - split; [by exists ev|]. by intros (? & [= <-] & ?).
  - rewrite elem_of_nil. split; [done|]. by intros (? & ? & _).
Qed.

Lemma links_from_parent (h : gmap nat Event) (child e : nat) (pl : ParentLink) :
  pl ∈ links_from h child e → parent pl = e.
Proof. intros (ev & _ & Hin)%elem_of_links_from. by eapply links_of_parent. Qed.

Lemma elem_of_scan (h : gmap nat Event) (child : nat) (es : list nat)
    (pl : ParentLink) :
  pl ∈ es ≫= links_from h child ↔
  parent pl ∈ es ∧ pl ∈ links_from h child (parent pl).
Proof.
  rewrite list_elem_of_bind. split.
  - intros (e & Hin & He). by rewrite (links_from_parent _ _ _ _ Hin).
  - intros [He Hin]. by exists (parent pl).
Qed.

(** Counting in the scan: entries that belong to one parent [p] are all
    found at [p]'s place in the list of events. *)
Lemma count_scan (P : ParentLink → Prop) `{∀ x, Decision (P x)}
    (h : gmap nat Event) (child p : nat) (es : list nat) :
  (∀ x, P x → parent x = p) → NoDup es →
  length (filter P (es ≫= links_from h child))
  = if decide (p ∈ es) then length (filter P (links_from h child p)) else 0.
Proof.
  intros HP. induction es as [|a es IH]; intros Hnd.
  - by rewrite decide_False by apply not_elem_of_nil.
  - apply NoDup_cons in Hnd as [Ha Hnd]. rewrite bind_cons, filter_app, length_app.
    rewrite IH by done. destruct (decide (a = p)) as [->|Hne].
    + rewrite (decide_True (P := p ∈ p :: es)) by left.
      rewrite (decide_False (P := p ∈ es)) by done. lia.
    + rewrite (filter_ext_in P (λ _, False)), filter_none.
      * simpl. destruct (decide (p ∈ es)).
        -- by rewrite decide_True by (by right).
        -- rewrite decide_False; [done|]. by intros [?|?]%elem_of_cons.
      * intros x Hx%links_from_parent. split; [|done].
        intros HPx%HP. congruence.
Qed.

Lemma count_link_NoDup (l : list ParentLink) (pl : ParentLink) :
  NoDup l → count_link l pl ≤ 1.
Proof.
  unfold count_link. induction 1 as [|x l Hx Hnd IH]; [simpl; lia|].
  rewrite filter_cons. destruct (decide (x = pl)) as [->|Hne]; [|done].
  simpl. rewrite (filter_ext_in _ (λ _, False)), filter_none; [simpl; lia|].
  intros y Hy. split; [|done]. by intros ->.
Qed.

Lemma links_of_switch_NoDup (child e : nat) (cs : list (Z * option nat)) :
  PyDict.wf cs → NoDup (links_of child e (SwitchEvent cs)).
Proof.
  simpl. induction cs as [|[k t] cs IH]; [intros _; apply NoDup_nil_2|].
  rewrite PyDictFacts.wf_cons. intros [Hk Hwf]. simpl.
  case_decide; [|by apply IH]. apply NoDup_cons. split; [|by apply IH].
  intros ([k' t'] & Hin & Hf)%list_elem_of_omap. simpl in Hf.
  case_decide; [|done]. simplify_eq/=. apply Hk.
  apply list_elem_of_fmap. by exists (k, Some child).
Qed.

Lemma links_of_count_le (child e : nat) (d : EventData) (pl : ParentLink) :
  (∀ cs, d = SwitchEvent cs → PyDict.wf cs) →
  link_type pl ≠ ForkBranch → count_link (links_of child e d) pl ≤ 1.
Proof.
  intros Hwf Hty. destruct d as [n|n|n|cs|fs|];
    try (apply count_link_NoDup; simpl; try case_decide;
         first [apply NoDup_nil_2 | apply NoDup_singleton]).
  - apply count_link_NoDup, links_of_switch_NoDup. by apply Hwf.
  - unfold count_link.
    rewrite (filter_ext_in _ (λ _, False)), filter_none; [simpl; lia|].
    intros x [_ ->]%elem_of_links_of. split; [|done]. by intros <-.
Qed.

Lemma links_of_fork_count (child e : nat) (d : EventData) :
  fork_count (links_of child e d) e
  = match d with ForkEvent fs => targets_child child fs | _ => 0 end.
Proof.
  unfold fork_count.
  destruct d as [n|n|n|cs|fs|];
    try (rewrite (filter_ext_in _ (λ _, False)), filter_none; [done|];
         intros x Hx%elem_of_links_of; split; [|done];
         intros [Hty _]; simpl in Hx;
         first [by destruct Hx as [_ ->]
               |by destruct Hx as (? & _ & ->)|done]).
  unfold targets_child, links_of. induction fs as [|fork fs IH]; [done|].
  rewrite omap_cons, (filter_cons _ fork fs).
  destruct (decide (fork = Some child)); [|done].
  rewrite filter_cons, decide_True by done. simpl. by rewrite IH.
Qed.

Lemma links_of_switch_keys (child e : nat) (d : EventData) :
  (∀ cs, d = SwitchEvent cs → PyDict.wf cs) →
  NoDup (switch_keys (links_of child e d)).
Proof.
  intros Hwf. destruct d as [n|n|n|cs|fs|];
    try (simpl; try case_decide; apply NoDup_nil_2).
  - specialize (Hwf cs eq_refl). simpl.
    induction cs as [|[k t] cs IH]; [apply NoDup_nil_2|].
    apply PyDictFacts.wf_cons in Hwf as [Hk Hwf]. simpl.
    case_decide; [|by apply IH]. rewrite switch_keys_cons. simpl.
    apply NoDup_cons. split; [|by apply IH].
    intros (pl & ([k' t'] & Hin & Hf)%list_elem_of_omap & _ & Hkey)%elem_of_switch_keys.
    simpl in Hf. case_decide; [|done]. simplify_eq/=. apply Hk.
    by apply (list_elem_of_fmap_2 fst) in Hin.
  - assert (switch_keys (links_of child e (ForkEvent fs)) = []) as ->;
      [|apply NoDup_nil_2].
    destruct (switch_keys _) as [|k ks] eqn:E; [done|]. exfalso.
    assert (k ∈ switch_keys (links_of child e (ForkEvent fs))) as Hk
      by (rewrite E; left).
    apply elem_of_switch_keys in Hk as (pl & [_ ->]%elem_of_links_of & Hty & _).
    done.
Qed.

Lemma scan_switch_keys (h : gmap nat Event) (child : nat) (es : list nat) :
  store_wf h → NoDup es → NoDup (switch_keys (es ≫= links_from h child)).
Proof.
  intros Hwf. induction es as [|a es IH]; intros Hnd; [apply NoDup_nil_2|].
  apply NoDup_cons in Hnd as [Ha Hnd].
  rewrite bind_cons, switch_keys_app. apply NoDup_app. split_and!.
  - unfold links_from. destruct (h !! a) as [ev|] eqn:Ea; [|apply NoDup_nil_2].
    apply links_of_switch_keys. intros cs Hcs. by eapply Hwf.
  - intros k (pl & Hin & _ & ->)%elem_of_switch_keys
             (pl' & [Hin' _]%elem_of_scan & _ & Heq)%elem_of_switch_keys.
    apply links_from_parent in Hin. simplify_eq/=. congruence.
  - by apply IH.
Qed.

Lemma links_of_switch_detail (child e : nat) (d : EventData) (pl : ParentLink) :
  pl ∈ links_of child e d → link_type pl = SwitchCase → is_Some (detail pl).
Proof.
  rewrite elem_of_links_of.
  destruct d; [intros [_ ->]|intros [_ ->]|intros [_ ->]
              |intros (? & _ & ->)|intros [_ ->]|]; done.
Qed.

Lemma with_nxt_same (d : EventData) (n : option nat) :
  sequential_nxt d = Some n → with_nxt d n = d.
Proof. destruct d; simpl; try done; by intros [= ->]. Qed.

Lemma filter_nil_all {A} (P : A → Prop) `{∀ x, Decision (P x)} (l : list A) :
  (∀ x, x ∈ l → ¬ P x) → filter P l = [].
Proof.
  intros Hl. rewrite (filter_ext_in P (λ _, False)); [apply filter_none|].
  intros x Hx. split; [by apply Hl|done].
Qed.

(** What the scan of a store holds for one parent. *)
Lemma scan_has_next (h : gmap nat Event) (child : nat) (es : list nat) (p : nat) :
  (∃ pl, pl ∈ es ≫= links_from h child ∧ link_type pl = Next ∧ parent pl = p)
  ↔ p ∈ es ∧ ∃ ev, h !! p = Some ev
                   ∧ sequential_nxt (data ev) = Some (Some child).
Proof.
  split.
  - intros (pl & [Hp (ev & Hev & Hin)%elem_of_links_from]%elem_of_scan & Hty & <-).
    split; [done|]. exists ev. split; [done|].
    apply elem_of_links_of in Hin.
    destruct (data ev) as [n|n|n|cs|fs|]; simpl in *.
    + destruct Hin as [Hn _]. by rewrite Hn.
    + destruct Hin as [Hn _]. by rewrite Hn.
    + destruct Hin as [Hn _]. by rewrite Hn.
    + destruct Hin as (w & _ & Heq). by rewrite Heq in Hty.
    + destruct Hin as [_ Heq]. by rewrite Heq in Hty.
    + done.
  - intros (Hp & ev & Hev & Hn). exists (mkParentLink p Next None).
    split_and!; [|done|done]. apply elem_of_scan. simpl. split; [done|].
    apply elem_of_links_from. exists ev. split; [done|].
    apply elem_of_links_of. by destruct (data ev); simplify_eq/=.
Qed.

Lemma scan_has_case (h : gmap nat Event) (child : nat) (es : list nat)
    (p : nat) (v : Z) :
  (∃ pl, pl ∈ es ≫= links_from h child ∧ link_type pl = SwitchCase
         ∧ parent pl = p ∧ detail pl = Some v)
  ↔ p ∈ es ∧ ∃ ev cs, h !! p = Some ev ∧ data ev = SwitchEvent cs
                      ∧ (v, Some child) ∈ cs.
Proof.
  split.
  - intros (pl & [Hp (ev & Hev & Hin)%elem_of_links_from]%elem_of_scan
              & Hty & <- & Hd).
    split; [done|]. exists ev. apply elem_of_links_of in Hin.
    destruct (data ev) as [n|n|n|cs|fs|]; simpl in *.
    + destruct Hin as [_ Heq]. by rewrite Heq in Hty.
    + destruct Hin as [_ Heq]. by rewrite Heq in Hty.
    + destruct Hin as [_ Heq]. by rewrite Heq in Hty.
    + destruct Hin as (w & Hw & Heq). rewrite Heq in Hd. simpl in Hd.
      injection Hd as ->. by exists cs.
    + destruct Hin as [_ Heq]. by rewrite Heq in Hty.
    + done.
  - intros (Hp & ev & cs & Hev & Hdata & Hin).
    exists (mkParentLink p SwitchCase (Some v)).
    split_and!; [|done|done|done]. apply elem_of_scan. simpl. split; [done|].
    apply elem_of_links_from. exists ev. split; [done|].
    apply elem_of_links_of. rewrite Hdata. by exists v.
Qed.

Lemma scan_fork_count (h : gmap nat Event) (child : nat) (es : list nat) (p : nat) :
  NoDup es →
  fork_count (es ≫= links_from h child) p
  = if decide (p ∈ es)
    then match h !! p with
         | Some ev =>
             match data ev with
             | ForkEvent fs => targets_child child fs
             | _ => 0
             end
         | None => 0
         end
    else 0.
Proof.
  intros Hnd. unfold fork_count.
  rewrite (count_scan _ h child p es) by (by intros x [_ ?] || done).
  case_decide; [|done]. unfold links_from.
  destruct (h !! p) as [ev|]; [|done]. apply links_of_fork_count.
Qed.

Lemma add_desired_cases_wf (child : nat) (vs : list Z)
    (cs : list (Z * option nat)) :
  PyDict.wf cs → PyDict.wf (add_desired_cases child vs cs).2.
Proof.
  revert cs. induction vs as [|v vs IH]; intros cs Hwf; simpl; [done|].
  destruct (PyDict.contains cs v) eqn:Ec; simpl.
  - case_bool_decide; simpl; [done|by apply IH].
  - apply IH. apply PyDictFacts.contains_false in Ec.
    rewrite PyDictFacts.set_absent by done. by apply PyDictFacts.wf_snoc.
Qed.

Lemma filter_length_pos {A} (P : A → Prop) `{∀ x, Decision (P x)} (l : list A) :
  0 < length (filter P l) ↔ ∃ x, x ∈ l ∧ P x.
Proof.
  split.
  - destruct (filter P l) as [|x rest] eqn:E; [simpl; lia|]. intros _.
    assert (x ∈ filter P l) as [? ?]%list_elem_of_filter by (rewrite E; left).
    by exists x.
  - intros (x & Hin & HP).
    assert (x ∈ filter P l) as Hx by (by apply list_elem_of_filter).
    destruct (filter P l); [by apply elem_of_nil in Hx|simpl; lia].
Qed.

Lemma fork_count_none (l : list ParentLink) (p : nat) :
  (∀ pl, pl ∈ l → parent pl = p → link_type pl ≠ ForkBranch) →
  fork_count l p = 0.
Proof.
  intros Hl. unfold fork_count. rewrite filter_nil_all; [done|].
  intros pl Hin [Hty Hp]. by apply (Hl pl).
Qed.

Lemma links_of_with_nxt (child e : nat) (d : EventData) (m : option nat)
    (pl : ParentLink) :
  is_Some (sequential_nxt d) →
  pl ∈ links_of child e (with_nxt d m)
  ↔ m = Some child ∧ pl = mkParentLink e Next None.
Proof.
  intros [n Hn]. rewrite elem_of_links_of. by destruct d.
Qed.

Section Reconciliation.
Context (iter_events : gset nat → list nat).
Context (iter_values : gset Z → list Z).
Context (iter_events_members : lists_members iter_events).
Context (iter_values_members : lists_members iter_values).

Lemma reconcile_event_wf (D : Desired) (child e : nat) (ev : Event) :
  (∀ cs, data ev = SwitchEvent cs → PyDict.wf cs) →
  ∀ cs, data (reconcile_event iter_values D child e ev).2 = SwitchEvent cs →
        PyDict.wf cs.
Proof.
  intros Hwf cs'. unfold reconcile_event, reconcile_next.
  destruct (data ev) as [n|n|n|cs|fs|] eqn:E; simpl;
    try (repeat case_decide; simpl; done).
  - intros [= <-]. apply add_desired_cases_wf.
    destruct (decide (PyDict.wf cs)) as [Hcs|Hcs]; [|by destruct Hcs; auto].
    rewrite remove_undesired_filter by done. by apply wf_filter.
  - rewrite E. done.
Qed.

Lemma apply_events_wf (D : Desired) (child : nat) (es : list nat)
    (h : gmap nat Event) :
  store_wf h → store_wf (apply_events iter_values D child es h).2.
Proof.
  intros Hwf e ev' cs' Hev' Hdata.
  destruct (h !! e) as [ev|] eqn:Hev.
  - destruct (apply_events_inv iter_values D child
                (λ _ a b, (∀ cs, data a = SwitchEvent cs → PyDict.wf cs) →
                          (∀ cs, data b = SwitchEvent cs → PyDict.wf cs)))
      with (es := es) (h := h) (e := e) (ev := ev)
      as (ev'' & Hev'' & HR); [done| | |done|].
    + intros _ a b c Hab Hbc Ha. by apply Hbc, Hab.
    + intros e' x. apply reconcile_event_wf.
    + assert (ev'' = ev') as -> by congruence.
      apply (HR (λ cs, Hwf e ev cs Hev)). done.
  - rewrite (apply_events_absent _ _ _ _ _ _ Hev) in Hev'. done.
Qed.

Lemma apply_events_fixed (D : Desired) (child : nat) (es : list nat)
    (h : gmap nat Event) :
  (∀ e ev, e ∈ es → h !! e = Some ev →
           reconcile_event iter_values D child e ev = (None, ev)) →
  apply_events iter_values D child es h = (Applied, h).
Proof.
  induction es as [|a es IH]; intros Hfix; simpl; [done|].
  destruct (h !! a) as [eva|] eqn:Ea.
  - rewrite (Hfix a eva) by (done || left). simpl.
    rewrite insert_id by done. apply IH. intros e ev ?. apply Hfix. by right.
  - apply IH. intros e ev ?. apply Hfix. by right.
Qed.

(** Applying the scan of a store to that store changes nothing. *)
Lemma applyChanges_scan_fixed (answer : bool) (h : gmap nat Event)
    (fd : FlowData) (child : nat) (f : EventFlow) (fc : Flowchart) :
  flow fd = Some f → flowchart f = Some fc →
  NoDup (events fc) → store_wf h →
  _applyChanges iter_events iter_values answer (open_dialog h fd child) h
  = (Applied, h).
Proof.
  intros Hf Hfc Hnd Hwf. unfold _applyChanges, open_dialog. simpl.
  unfold _gatherExistingLinks. rewrite Hf, Hfc.
  set (es := events fc) in *. set (l := es ≫= links_from h child).
  assert (isValid l = true) as ->.
  { apply isValid_NoDup. by apply scan_switch_keys. }
  simpl.
  destruct (build_desired_is_Some l no_desired) as [D HD].
  { intros pl [_ (ev & _ & Hin)%elem_of_links_from]%elem_of_scan.
    by eapply links_of_switch_detail. }
  rewrite HD.
  assert (to_overwrite iter_events h child D = []) as ->.
  { unfold to_overwrite. apply filter_nil_all.
    intros p Hp%iter_events_members.
    apply (build_desired_next _ _ _ HD) in Hp.
    apply scan_has_next in Hp as (_ & ev & Hev & Hn).
    unfold needs_overwrite. rewrite Hev, Hn.
    rewrite bool_decide_false by (by intros ?). by intros []. }
  rewrite bool_decide_false by (by intros ?). simpl.
  apply apply_events_fixed. intros e ev He Hev.
  destruct (sequential_nxt (data ev)) as [n|] eqn:Hn.
  - rewrite (reconcile_event_sequential _ _ _ _ _ _ Hn).
    assert ((if decide (e ∈ desired_next D) then Some child
             else if decide (n = Some child) then None else n) = n) as ->.
    { pose proof (build_desired_next l D e HD) as Hnext.
      pose proof (scan_has_next h child es e) as Hscan.
      destruct (decide (e ∈ desired_next D)) as [Hin|Hni].
      - apply Hnext, Hscan in Hin as (_ & ev' & Hev' & Hn').
        congruence.
      - destruct (decide (n = Some child)) as [->|]; [|done].
        exfalso. apply Hni, Hnext, Hscan. split; [done|]. by exists ev. }
    by rewrite (with_nxt_same _ _ Hn), set_data_same.
  - unfold reconcile_event.
    destruct (data ev) as [n|n|n|cs|fs|] eqn:Hdata; try done.
    + assert (∀ v, v ∈ default ∅ (desired_switch D !! e)
                   ↔ (v, Some child) ∈ cs) as HD'.
      { intros v. rewrite (build_desired_switch l D e v HD).
        unfold l. rewrite scan_has_case. split.
        - intros (_ & ev' & cs' & Hev' & Hdata' & Hin).
          assert (ev' = ev) as -> by congruence.
          assert (cs' = cs) as -> by congruence. done.
        - intros Hin. split; [done|]. by exists ev, cs. }
      rewrite remove_undesired_settled by (intros v; apply HD').
      rewrite add_desired_cases_settled.
      * simpl. by rewrite <- Hdata, set_data_same.
      * by eapply Hwf.
      * intros v Hv%iter_values_members. by apply HD'.
    + rewrite (build_desired_fork l D e HD). unfold l.
      rewrite scan_fork_count by done.
      rewrite decide_True by done. rewrite Hev, Hdata.
      rewrite reconcile_forks_settled by done.
      by rewrite <- Hdata, set_data_same.
Qed.


Lemma apply_events_NoDup (D : Desired) (child : nat) (es : list nat)
    (h : gmap nat Event) :
  NoDup es →
  (∀ e ev, e ∈ es → h !! e = Some ev →
           (reconcile_event iter_values D child e ev).1 = None) →
  ∃ h', apply_events iter_values D child es h = (Applied, h') ∧
    ∀ e, h' !! e =
         if decide (e ∈ es)
         then (λ ev, (reconcile_event iter_values D child e ev).2) <$> h !! e
         else h !! e.
Proof.
  revert h. induction es as [|a es IH]; intros h Hnd Hok; simpl.
  - exists h. split; [done|]. intros e.
    by destruct (decide (e ∈ [])) as [?%elem_of_nil|].
  - apply NoDup_cons in Hnd as [Ha Hnd].
    destruct (h !! a) as [eva|] eqn:Ea.
    + rewrite (Hok a eva) by (done || left).
      destruct (IH (<[a:=(reconcile_event iter_values D child a eva).2]> h))
        as (h' & -> & Hh'); [done| |].
      { intros e ev He. assert (a ≠ e) by (by intros ->).
        rewrite lookup_insert_ne by done. intros ?. apply Hok; [by right|done]. }
      exists h'. split; [done|]. intros e. rewrite Hh'.
      destruct (decide (a = e)) as [<-|Hne].
      * rewrite decide_False by done. rewrite decide_True by left.
        by rewrite lookup_insert_eq, Ea.
      * rewrite lookup_insert_ne by done.
        destruct (decide (e ∈ es)).
        -- by rewrite decide_True by (by right).
        -- rewrite decide_False; [done|]. by intros [?|?]%elem_of_cons.
    + destruct (IH h) as (h' & -> & Hh'); [done| |].
      { intros e ev He. apply Hok. by right. }
      exists h'. split; [done|]. intros e. rewrite Hh'.
      destruct (decide (a = e)) as [<-|Hne].
      * rewrite decide_False by done. rewrite decide_True by left.
        by rewrite Ea.
      * destruct (decide (e ∈ es)).
        -- by rewrite decide_True by (by right).
        -- rewrite decide_False; [done|]. by intros [?|?]%elem_of_cons.
Qed.

(** The loop body on a parent whose desired links fit its payload and
    ask for no case bound elsewhere: it reports no conflict, and a scan
    of the new payload finds the desired links of that parent. *)
Lemma reconcile_event_links (desired : list ParentLink) (D : Desired)
    (child e : nat) (ev : Event) :
  build_desired no_desired desired = Some D →
  (∀ cs, data ev = SwitchEvent cs → PyDict.wf cs) →
  (∀ pl, pl ∈ desired → parent pl = e → compatible (data ev) pl) →
  (∀ pl cs v, pl ∈ desired → parent pl = e → data ev = SwitchEvent cs →
              detail pl = Some v →
              PyDict.get cs v = None ∨ PyDict.get cs v = Some (Some child)) →
  let r := reconcile_event iter_values D child e ev in
  r.1 = None ∧
  (∀ pl, pl ∈ links_of child e (data r.2) ↔ pl ∈ desired ∧ parent pl = e) ∧
  fork_count (links_of child e (data r.2)) e = fork_count desired e.
Proof.
  intros HD Hwf Hcompat Hnc. simpl.
  destruct (sequential_nxt (data ev)) as [n|] eqn:Hn.
  - rewrite (reconcile_event_sequential _ _ _ _ _ _ Hn). simpl.
    assert (∀ pl, pl ∈ desired → parent pl = e →
                  pl = mkParentLink e Next None) as Hseq.
    { intros pl Hin Hp. specialize (Hcompat pl Hin Hp).
      destruct (data ev); simplify_eq/=;
        destruct pl, Hcompat; simpl in *; by subst. }
    pose proof (build_desired_next desired D e HD) as Hnext.
    split_and!; [done| |].
    + intros pl. rewrite links_of_with_nxt by eauto. split.
      * intros [Hg ->]. simpl. split; [|done].
        destruct (decide (e ∈ desired_next D)) as [Hin|Hni].
        -- apply Hnext in Hin as (pl & Hin & Hty & Hp).
           by rewrite <- (Hseq pl Hin Hp).
        -- by destruct (decide (n = Some child)).
      * intros [Hin Hp]. pose proof (Hseq pl Hin Hp) as Heq.
        split; [|done]. rewrite decide_True; [done|].
        apply Hnext. exists pl. split_and!; [done| |done]. by rewrite Heq.
    + rewrite links_of_fork_count. rewrite fork_count_none.
      * by destruct (data ev).
      * intros pl Hin Hp. by rewrite (Hseq pl Hin Hp).
  - destruct (data ev) as [n|n|n|cs|fs|] eqn:Hdata; try done.
    + unfold reconcile_event. rewrite Hdata.
      set (Dsw := default ∅ (desired_switch D !! e)).
      pose proof (Hwf cs eq_refl) as Hcs.
      rewrite remove_undesired_filter by done.
      set (cs1 := filter (λ kv : Z * option nat,
                            ¬ (kv.2 = Some child ∧ kv.1 ∉ Dsw)) cs).
      assert (PyDict.wf cs1) as Hwf1 by (by apply wf_filter).
      assert (∀ v, v ∈ Dsw ↔ mkParentLink e SwitchCase (Some v) ∈ desired)
        as HDsw.
      { intros v. unfold Dsw. rewrite (build_desired_switch _ _ _ _ HD). split.
        - intros (pl & Hin & Hty & Hp & Hd). destruct pl; simpl in *. by subst.
        - intros Hin. by eexists. }
      assert (∀ v t, v ∈ Dsw → (v, t) ∈ cs1 → t = Some child) as Hbound.
      { intros v t Hv [_ Hin]%list_elem_of_filter.
        apply (PyDictFacts.elem_get _ _ _ Hcs) in Hin.
        destruct (Hnc (mkParentLink e SwitchCase (Some v)) cs v) as [Hc|Hc];
          [by apply HDsw|done|done|done| |]; congruence. }
      destruct (add_desired_cases_ok child (iter_values Dsw) cs1)
        as (cs2 & Hadd & Hwf2 & Hin2); [done| |].
      { intros v Hv%iter_values_members.
        destruct (PyDict.get cs1 v) as [t|] eqn:Hg; [|by left]. right.
        f_equal. apply (Hbound v); [done|].
        by apply PyDictFacts.get_Some_elem. }
      rewrite Hadd. cbn [fst snd set_data data]. split_and!; [done| |].
      * intros pl. rewrite elem_of_links_of. split.
        -- intros (v & Hv & ->). simpl. split; [|done]. apply HDsw.
           apply Hin2 in Hv as [Hv|(Hv & _ & _)].
           ++ apply list_elem_of_filter in Hv as [Hv _]. simpl in Hv.
              destruct (decide (v ∈ Dsw)); [done|]. exfalso. by apply Hv.
           ++ by apply iter_values_members.
        -- intros [Hin Hp]. destruct (Hcompat pl Hin Hp) as [Hty [v Hd]].
           exists v.
           assert (pl = mkParentLink e SwitchCase (Some v)) as ->
             by (destruct pl; simpl in *; by subst).
           split; [|done]. apply Hin2.
           assert (v ∈ Dsw) as HvD by (by apply HDsw).
           destruct (decide (v ∈ PyDict.keys cs1)) as [Hk|Hk].
           ++ left. apply list_elem_of_fmap in Hk as ([k t] & -> & Hkt).
              simpl in *. by rewrite <- (Hbound k t HvD Hkt).
           ++ right. split_and!; [by apply iter_values_members|done|done].
      * rewrite links_of_fork_count. symmetry. apply fork_count_none.
        intros pl Hin Hp. by destruct (Hcompat pl Hin Hp) as [-> _].
    + rewrite (reconcile_event_fork _ _ _ _ _ _ Hdata).
      cbn [fst snd set_data data].
      rewrite (build_desired_fork desired D e HD).
      assert (∀ pl, pl ∈ desired → parent pl = e →
                    pl = mkParentLink e ForkBranch None) as Hfk.
      { intros pl Hin Hp. destruct (Hcompat pl Hin Hp) as [Hty Hd].
        destruct pl; simpl in *; by subst. }
      split_and!; [done| |].
      * intros pl. rewrite elem_of_links_of. split.
        -- intros [Hc ->]. simpl. split; [|done].
           assert (0 < fork_count desired e) as Hpos.
           { rewrite <- (reconcile_forks_count child (fork_count desired e) fs).
             apply filter_length_pos. by exists (Some child). }
           apply filter_length_pos in Hpos as (pl & Hin & Hty & Hp).
           by rewrite <- (Hfk pl Hin Hp).
        -- intros [Hin Hp]. pose proof (Hfk pl Hin Hp) as Heq.
           split; [|done].
           assert (0 < targets_child child
                         (reconcile_forks child (fork_count desired e) fs))
             as (x & Hx & ->)%filter_length_pos; [|done].
           rewrite reconcile_forks_count. apply filter_length_pos.
           exists pl. split; [done|]. by rewrite Heq.
      * rewrite links_of_fork_count. apply reconcile_forks_count.
    + unfold reconcile_event. rewrite Hdata. simpl. rewrite Hdata. simpl.
      split_and!; [done| |].
      * intros pl. rewrite elem_of_nil. split; [done|].
        intros [Hin Hp]. by apply (Hcompat pl).
      * symmetry. apply fork_count_none. intros pl Hin Hp.
        by destruct (Hcompat pl Hin Hp).
Qed.

(** C1, amended: on a flowchart that lists each event once and whose
    switches are dictionaries, take a desired list with no repeated
    switch case and no self-parent entry, whose links name events of the
    flowchart with a fitting kind of payload, which asks for no switch
    value bound to another event, and whose overwrites of next pointers,
    if any, the user confirms.  Then [_applyChanges] succeeds, and the
    scan of the changed store holds exactly the desired links: the same
    members, each [Next] and [SwitchCase] link once, and for each parent
    as many [ForkBranch] entries as the desired list. *)
Theorem reconcile_reaches_desired (answer : bool) (dlg : EditParentsDialog)
    (h : gmap nat Event) (f : EventFlow) (fc : Flowchart) :
  let child := child_event dlg in
  flow (flow_data dlg) = Some f → flowchart f = Some fc →
  NoDup (events fc) → store_wf h →
  NoDup (switch_keys (model dlg)) →
  (∀ pl, pl ∈ model dlg → parent pl ≠ child) →
  (∀ pl, pl ∈ model dlg →
         parent pl ∈ events fc
         ∧ ∃ ev, h !! parent pl = Some ev ∧ compatible (data ev) pl) →
  (∀ pl ev cs v, pl ∈ model dlg → h !! parent pl = Some ev →
                 data ev = SwitchEvent cs → detail pl = Some v →
                 PyDict.get cs v = None
                 ∨ PyDict.get cs v = Some (Some child)) →
  (answer = true
   ∨ ∀ pl ev x, pl ∈ model dlg → link_type pl = Next →
                h !! parent pl = Some ev →
                sequential_nxt (data ev) = Some (Some x) → x = child) →
  let r := _applyChanges iter_events iter_values answer dlg h in
  let scan := _gatherExistingLinks r.2 (flow_data dlg) child in
  r.1 = Applied ∧
  (∀ pl, pl ∈ scan ↔ pl ∈ model dlg) ∧
  (∀ pl, link_type pl ≠ ForkBranch → count_link scan pl ≤ 1) ∧
  (∀ p, fork_count scan p = fork_count (model dlg) p).
Proof.
  intros child Hf Hfc Hnd Hwf Hkeys Hself Hcompat Hnc Hconfirm. simpl.
  unfold _applyChanges, _gatherExistingLinks. rewrite Hf, Hfc.
  subst child. set (child := child_event dlg) in *.
  set (desired := model dlg) in *. set (es := events fc) in *.
  rewrite (proj2 (isValid_NoDup desired) Hkeys). simpl.
  destruct (build_desired_is_Some desired no_desired) as [D HD].
  { intros pl Hin Hty. destruct (Hcompat pl Hin) as (_ & ev & _ & Hc).
    destruct (data ev); simpl in Hc; destruct Hc; congruence. }
  rewrite HD.
  assert (bool_decide (to_overwrite iter_events h child D ≠ []) && negb answer
          = false) as ->.
  { destruct Hconfirm as [->|Hnone]; [apply andb_false_r|].
    rewrite bool_decide_false; [done|]. intros Hne. apply Hne.
    unfold to_overwrite. apply filter_nil_all.
    intros p Hp%iter_events_members.
    apply (build_desired_next _ _ _ HD) in Hp as (pl & Hin & Hty & <-).
    unfold needs_overwrite.
    destruct (h !! parent pl) as [ev|] eqn:Hev; [|by intros []].
    destruct (sequential_nxt (data ev)) as [[x|]|] eqn:Hn; try by intros [].
    rewrite (Hnone pl ev x Hin Hty Hev Hn).
    rewrite bool_decide_false by (by intros ?). by intros []. }
  assert (∀ e ev, e ∈ es → h !! e = Some ev →
            let r := reconcile_event iter_values D child e ev in
            r.1 = None ∧
            (∀ pl, pl ∈ links_of child e (data r.2)
                   ↔ pl ∈ desired ∧ parent pl = e) ∧
            fork_count (links_of child e (data r.2)) e = fork_count desired e)
    as Hbody.
  { intros e ev He Hev. apply reconcile_event_links; [done| | |].
    - intros cs Hcs. by eapply Hwf.
    - intros pl Hin Hp. destruct (Hcompat pl Hin) as (_ & ev' & Hev' & Hc).
      rewrite Hp in Hev'. by simplify_eq.
    - intros pl cs v Hin Hp Hcs Hd. apply (Hnc pl ev cs v); try done.
      by rewrite Hp. }
  destruct (apply_events_NoDup D child es h Hnd) as (h' & Hrun & Hh').
  { intros e ev He Hev. by apply Hbody. }
  rewrite Hrun. simpl.
  assert (store_wf h') as Hwf'.
  { change h' with (Applied, h').2. rewrite <- Hrun.
    by apply apply_events_wf. }
  assert (∀ p, p ∈ es → h !! p = None →
               ∀ pl, pl ∈ desired → parent pl ≠ p) as Hnorec.
  { intros p Hp Hnone pl Hin Heq.
    destruct (Hcompat pl Hin) as (_ & ev & Hev & _). congruence. }
  split_and!; [done| | |].
  - intros pl. rewrite elem_of_scan, elem_of_links_from. split.
    + intros (Hp & ev' & Hev' & Hin). rewrite Hh', decide_True in Hev' by done.
      destruct (h !! parent pl) as [ev|] eqn:Hev; [|done].
      simpl in Hev'. injection Hev' as <-.
      by apply (Hbody (parent pl) ev Hp Hev) in Hin as [? _].
    + intros Hin. destruct (Hcompat pl Hin) as (Hp & ev & Hev & _).
      split; [done|]. eexists. rewrite Hh', decide_True, Hev by done.
      split; [done|]. by apply (Hbody (parent pl) ev Hp Hev).
  - intros pl Hty. unfold count_link.
    rewrite (count_scan _ h' child (parent pl) es) by (by intros x -> || done).
    case_decide; [|lia]. unfold links_from.
    destruct (h' !! parent pl) as [ev'|] eqn:Hev'; [|simpl; lia].
    apply links_of_count_le; [|done]. intros cs Hcs. by eapply Hwf'.
  - intros p. unfold fork_count at 1.
    rewrite (count_scan _ h' child p es) by (by intros x [_ ?] || done).
    case_decide as Hp.
    + unfold links_from. rewrite Hh', decide_True by done.
      destruct (h !! p) as [ev|] eqn:Hev; simpl.
      * by apply (Hbody p ev Hp Hev).
      * symmetry. apply fork_count_none. intros pl Hin Heq.
        by destruct (Hnorec p Hp Hev pl Hin).
    + symmetry. apply fork_count_none. intros pl Hin Heq.
      destruct (Hcompat pl Hin) as (Hin' & _). by rewrite Heq in Hin'.
Qed.
End Reconciliation.

(** * Fork entries of the working list *)

Lemma scan_fork_details_none (h : gmap nat Event) (fd : FlowData) (child : nat) :
  fork_details_none (_gatherExistingLinks h fd child).
Proof.
  unfold _gatherExistingLinks. intros pl Hin Hty.
  destruct (flow fd) as [f|]; [|by apply elem_of_nil in Hin].
  destruct (flowchart f) as [fc|]; [|by apply elem_of_nil in Hin].
  apply elem_of_scan in Hin as [_ (ev & _ & Hin)%elem_of_links_from].
  apply elem_of_links_of in Hin. destruct (data ev); simpl in *.
  - destruct Hin as [_ Heq]. by rewrite Heq.
  - destruct Hin as [_ Heq]. by rewrite Heq.
  - destruct Hin as [_ Heq]. by rewrite Heq.
  - destruct Hin as (? & _ & Heq). by rewrite Heq in Hty.
  - destruct Hin as [_ Heq]. by rewrite Heq.
  - done.
Qed.

(** C10, amended: [appendLink] refuses a [ForkBranch] link for a parent
    that already has one in the list, so through every run of
    [appendLink] (with fork links built as [addParent] builds them) and
    [removeRow] on the list seeded by the scan, the number of
    [ForkBranch] entries of a parent stays at most the larger of its
    seeded number and one. *)
Theorem fork_count_bounded_by_seed (h : gmap nat Event) (fd : FlowData)
    (child : nat) (ops : list ModelOp) (p : nat) :
  (∀ link, OpAppend link ∈ ops → link_type link = ForkBranch →
           detail link = None) →
  let seeded := _gatherExistingLinks h fd child in
  (∀ l, mkParentLink p ForkBranch None ∈ l →
        appendLink l (mkParentLink p ForkBranch None) = (false, l)) ∧
  fork_count (run_ops seeded ops) p ≤ max (fork_count seeded p) 1.
Proof.
  intros Hops. simpl. split; [intros l; apply appendLink_present|].
  apply run_ops_fork_count; [apply scan_fork_details_none|done|lia].
Qed.

(** C10 as stated fails for a fork parent without seeded entry: one
    [appendLink] raises its count from zero to one. *)
Lemma fork_count_raised_from_zero :
  ¬ (∀ (h : gmap nat Event) (fd : FlowData) (child : nat)
       (ops : list ModelOp) (p : nat),
       (∀ link, OpAppend link ∈ ops → link_type link = ForkBranch →
                detail link = None) →
       fork_count (run_ops (_gatherExistingLinks h fd child) ops) p
       ≤ fork_count (_gatherExistingLinks h fd child) p).
Proof.
  intros Hclaim.
  specialize (Hclaim lone_fork_store lone_fork_flow 0
                [OpAppend (mkParentLink 1 ForkBranch None)] 1).
  assert (fork_count
            (run_ops (_gatherExistingLinks lone_fork_store lone_fork_flow 0)
               [OpAppend (mkParentLink 1 ForkBranch None)]) 1 = 1) as E1
    by (vm_compute; reflexivity).
  assert (fork_count (_gatherExistingLinks lone_fork_store lone_fork_flow 0) 1
          = 0) as E0 by (vm_compute; reflexivity).
  rewrite E1, E0 in Hclaim. apply (Nat.nle_succ_0 0), Hclaim.
  intros link Hin%list_elem_of_singleton _. by injection Hin as ->.
Qed.

Lemma fork_count_bounded_by_seed_witness :
  fork_count
    (run_ops (_gatherExistingLinks sample_store sample_flow 0)
       [OpAppend (mkParentLink 3 ForkBranch None); OpRemove 3;
        OpAppend (mkParentLink 3 ForkBranch None)]) 3
  ≤ max (fork_count (_gatherExistingLinks sample_store sample_flow 0) 3) 1.
Proof.
  apply (fork_count_bounded_by_seed sample_store sample_flow 0
           [OpAppend (mkParentLink 3 ForkBranch None); OpRemove 3;
            OpAppend (mkParentLink 3 ForkBranch None)] 3).
  intros link Hin _.
  repeat (apply elem_of_cons in Hin as [Hin|Hin]; [by simplify_eq|]).
  by apply elem_of_nil in Hin.
Defined.

(** * Runs on the sample flowcharts *)

Lemma sorted_iter_members {A} `{Countable A} :
  lists_members (sorted_iter (A := A)).
Proof. intros X x. apply elem_of_elements. Qed.

(** C2: on [conflict_store] the desired list holds only case 3 of [S2],
    which is bound to event 5.  [_applyChanges] stops with the conflict,
    yet the store is no longer the one before the call: the case of [S1]
    for the child, visited earlier, is gone, and so is case 4 of [S2]
    itself.  The desired set of [S2] has one member, so the order of
    iteration plays no part. *)
Theorem conflict_leaves_partial_changes :
  let r := _applyChanges sorted_iter sorted_iter true
             conflict_dialog conflict_store in
  model conflict_dialog = [mkParentLink 2 SwitchCase (Some 3%Z)] ∧
  r.1 = Conflict 2 3 ∧
  r.2 ≠ conflict_store ∧
  conflict_store !! 1 = Some (mkEvent "S1" (SwitchEvent [(1%Z, Some 0)])) ∧
  r.2 !! 1 = Some (mkEvent "S1" (SwitchEvent [])) ∧
  r.2 !! 2 = Some (mkEvent "S2" (SwitchEvent [(3%Z, Some 5)])).
Proof.
  cbv zeta. split_and!; try (vm_compute; reflexivity).
  intros Heq.
  assert (∀ m : gmap nat Event, m = conflict_store →
            m !! 1 = Some (mkEvent "S1" (SwitchEvent [(1%Z, Some 0)]))) as Hl
    by (by intros m ->).
  specialize (Hl _ Heq). vm_compute in Hl. discriminate Hl.
Qed.

(** C1 as stated fails: the desired list below has no repeated switch
    case and no self-parent entry, yet [_applyChanges] does not succeed on
    it, because case 3 of [S2] is bound to another event. *)
Lemma reconcile_fails_on_bound_case :
  let dlg := conflict_dialog in
  NoDup (switch_keys (model dlg)) ∧
  (∀ pl, pl ∈ model dlg → parent pl ≠ child_event dlg) ∧
  returns_true
    (_applyChanges sorted_iter sorted_iter true dlg conflict_store).1 = false.
Proof.
  cbv zeta. split_and!.
  - apply (bool_decide_unpack _). vm_compute. exact I.
  - intros pl Hin.
    assert (model conflict_dialog = [mkParentLink 2 SwitchCase (Some 3%Z)])
      as Hm by (vm_compute; reflexivity).
    rewrite Hm in Hin. apply list_elem_of_singleton in Hin. by subst pl.
  - vm_compute. reflexivity.
Qed.

Lemma store_wfb_true (h : gmap nat Event) : store_wfb h = true → store_wf h.
Proof.
  unfold store_wfb. intros Hb%bool_decide_eq_true e ev cs Hev Hdata.
  specialize (Hb e ev Hev). unfold switch_keys_distinct in Hb.
  rewrite Hdata in Hb. by apply bool_decide_unpack in Hb.
Qed.

Lemma duplicate_switch_case_rejected_witness :
  let dlg := sample_dialog [mkParentLink 2 SwitchCase (Some 1%Z);
                            mkParentLink 4 Next None;
                            mkParentLink 2 SwitchCase (Some 1%Z)] in
  let r := _applyChanges sorted_iter sorted_iter true dlg sample_store in
  returns_true r.1 = false ∧ r.2 = sample_store ∧
  (∀ f fc, flow (flow_data dlg) = Some f → flowchart f = Some fc →
           r.1 = InvalidData).
Proof.
  apply (duplicate_switch_case_rejected sorted_iter sorted_iter true
           (sample_dialog [mkParentLink 2 SwitchCase (Some 1%Z);
                           mkParentLink 4 Next None;
                           mkParentLink 2 SwitchCase (Some 1%Z)])
           sample_store
           [] [mkParentLink 4 Next None] []
           (mkParentLink 2 SwitchCase (Some 1%Z))
           (mkParentLink 2 SwitchCase (Some 1%Z))); reflexivity.
Defined.

Lemma declined_overwrite_aborts_witness :
  let dlg := sample_dialog [mkParentLink 1 Next None] in
  let r := _applyChanges sorted_iter sorted_iter false dlg sample_store in
  returns_true r.1 = false ∧ r.2 = sample_store ∧
  (∀ f fc D, flow (flow_data dlg) = Some f → flowchart f = Some fc →
             isValid (model dlg) = true →
             build_desired no_desired (model dlg) = Some D →
             ∃ ov, r.1 = OverwriteDeclined ov ∧ 1 ∈ ov).
Proof.
  apply (declined_overwrite_aborts sorted_iter sorted_iter sorted_iter_members
           (sample_dialog [mkParentLink 1 Next None]) sample_store
           (mkParentLink 1 Next None) (mkEvent "A" (ActionEvent (Some 5))) 5).
  - left.
  - reflexivity.
  - vm_compute. reflexivity.
  - reflexivity.
  - discriminate.
Defined.

Lemma sequential_parent_update_witness :
  let dlg := sample_dialog [mkParentLink 1 Next None;
                            mkParentLink 2 SwitchCase (Some 1%Z)] in
  let h' := (_applyChanges sorted_iter sorted_iter true dlg sample_store).2 in
  ∃ ev', h' !! 1 = Some ev' ∧ name ev' = "A"
         ∧ data ev' = ActionEvent (Some 0).
Proof.
  cbv zeta.
  destruct (sequential_parent_update sorted_iter sorted_iter true
              (sample_dialog [mkParentLink 1 Next None;
                              mkParentLink 2 SwitchCase (Some 1%Z)])
              sample_store
              (_applyChanges sorted_iter sorted_iter true
                 (sample_dialog [mkParentLink 1 Next None;
                                 mkParentLink 2 SwitchCase (Some 1%Z)])
                 sample_store).2
              (mkEventFlow (Some (mkFlowchart [0; 1; 2; 3; 4; 5; 6])))
              (mkFlowchart [0; 1; 2; 3; 4; 5; 6])
              1 (mkEvent "A" (ActionEvent (Some 5))) (Some 5))
    as (ev' & n' & Hlook & Hname & _ & Hkind & _ & _ & Hwant & _).
  - vm_compute. reflexivity.
  - reflexivity.
  - reflexivity.
  - by_evaluation.
  - vm_compute. reflexivity.
  - reflexivity.
  - exists ev'. split; [exact Hlook|]. split; [exact Hname|].
    rewrite (Hkind (Some 5) eq_refl). f_equal. apply Hwant.
    exists (mkParentLink 1 Next None). split; [left|split; reflexivity].
Defined.

Lemma fork_parent_update_witness :
  let dlg := sample_dialog [mkParentLink 3 ForkBranch None] in
  let h' := (_applyChanges sorted_iter sorted_iter true dlg sample_store).2 in
  ∃ ev' forks', h' !! 3 = Some ev' ∧ name ev' = "F"
            ∧ data ev' = ForkEvent forks'
            ∧ ∃ l1 l2, [Some 0; Some 5; Some 0; Some 6; Some 0] = l1 ++ l2
                       ∧ targets_child 0 l1 = 1
                       ∧ forks' = l1 ++ other_forks 0 l2.
Proof.
  cbv zeta.
  destruct (fork_parent_update sorted_iter sorted_iter true
              (sample_dialog [mkParentLink 3 ForkBranch None])
              sample_store
              (_applyChanges sorted_iter sorted_iter true
                 (sample_dialog [mkParentLink 3 ForkBranch None])
                 sample_store).2
              (mkEventFlow (Some (mkFlowchart [0; 1; 2; 3; 4; 5; 6])))
              (mkFlowchart [0; 1; 2; 3; 4; 5; 6])
              3 (mkEvent "F" (ForkEvent [Some 0; Some 5; Some 0; Some 6; Some 0]))
              [Some 0; Some 5; Some 0; Some 6; Some 0])
    as (ev' & forks' & Hlook & Hname & Hdata & Hless & _).
  - vm_compute. reflexivity.
  - reflexivity.
  - reflexivity.
  - by_evaluation.
  - vm_compute. reflexivity.
  - reflexivity.
  - exists ev', forks'. split; [exact Hlook|]. split; [exact Hname|].
    split; [exact Hdata|]. apply Hless. vm_compute. lia.
Defined.

Lemma frame_condition_witness :
  let dlg := sample_dialog [mkParentLink 3 ForkBranch None] in
  let r := _applyChanges sorted_iter sorted_iter true dlg sample_store in
  (∀ e, (∀ pl, pl ∈ model dlg → parent pl ≠ e) →
        (∀ ev, sample_store !! e = Some ev → ¬ linked_to 0 (data ev)) →
        r.2 !! e = sample_store !! e) ∧
  (∀ e ev, sample_store !! e = Some ev →
           ∃ ev', r.2 !! e = Some ev' ∧ others_untouched 0 ev ev').
Proof.
  exact (frame_condition sorted_iter sorted_iter sorted_iter_members true
           (sample_dialog [mkParentLink 3 ForkBranch None]) sample_store).
Defined.


Lemma reconcile_reaches_desired_witness :
  let desired := [mkParentLink 4 Next None;
                  mkParentLink 2 SwitchCase (Some 1%Z);
                  mkParentLink 2 SwitchCase (Some 7%Z);
                  mkParentLink 3 ForkBranch None;
                  mkParentLink 3 ForkBranch None] in
  let r := _applyChanges sorted_iter sorted_iter false
             (sample_dialog desired) sample_store in
  let scan := _gatherExistingLinks r.2 sample_flow 0 in
  r.1 = Applied ∧
  (∀ pl, pl ∈ scan ↔ pl ∈ desired) ∧
  (∀ pl, link_type pl ≠ ForkBranch → count_link scan pl ≤ 1) ∧
  (∀ p, fork_count scan p = fork_count desired p).
Proof.
  apply (reconcile_reaches_desired sorted_iter sorted_iter
           sorted_iter_members sorted_iter_members false
           (sample_dialog [mkParentLink 4 Next None;
                           mkParentLink 2 SwitchCase (Some 1%Z);
                           mkParentLink 2 SwitchCase (Some 7%Z);
                           mkParentLink 3 ForkBranch None;
                           mkParentLink 3 ForkBranch None])
           sample_store
           (mkEventFlow (Some (mkFlowchart [0; 1; 2; 3; 4; 5; 6])))
           (mkFlowchart [0; 1; 2; 3; 4; 5; 6])).
  - reflexivity.
  - reflexivity.
  - by_evaluation.
  - apply store_wfb_true. vm_compute. reflexivity.
  - by_evaluation.
  - intros pl Hin. each_member Hin; discriminate.
  - intros pl Hin.
    each_member Hin;
      (split; [by_evaluation|];
       eexists; split; [vm_compute; reflexivity|];
       split; [reflexivity|first [reflexivity | by eexists]]).
  - intros pl ev cs v Hin Hev Hdata Hd.
    each_member Hin; vm_compute in Hev; injection Hev as <-;
      simpl in Hdata; try discriminate Hdata;
      injection Hdata as <-; injection Hd as <-;
      vm_compute; auto.
  - right. intros pl ev x Hin Hty Hev Hn.
    each_member Hin; try discriminate Hty.
    vm_compute in Hev. injection Hev as <-. by injection Hn as <-.
Defined.

(** * Further properties of the working list *)

Lemma list_pop_in_range {A} (l : list A) (i : nat) :
  i < length l → list_pop l (Z.of_nat i) = Some (delete i l).
Proof.
  intros Hi. unfold list_pop.
  rewrite (proj2 (Z.ltb_ge _ _)) by lia.
  rewrite (proj2 (Z.leb_le _ _)), (proj2 (Z.ltb_lt _ _)) by lia.
  simpl. by rewrite Nat2Z.id.
Qed.

Lemma list_pop_from_end {A} (l : list A) (k : nat) :
  0 < k ≤ length l →
  list_pop l (- Z.of_nat k) = Some (delete (length l - k) l).
Proof.
  intros Hk. unfold list_pop.
  rewrite (proj2 (Z.ltb_lt _ _)) by lia.
  rewrite (proj2 (Z.leb_le _ _)), (proj2 (Z.ltb_lt _ _)) by lia.
  simpl. do 2 f_equal. lia.
Qed.

Lemma list_index_in_range {A} (l : list A) (i : nat) :
  i < length l → list_index l (Z.of_nat i) = l !! i.
Proof.
  intros Hi. unfold list_index.
  rewrite (proj2 (Z.ltb_ge _ _)) by lia.
  rewrite (proj2 (Z.leb_le _ _)), (proj2 (Z.ltb_lt _ _)) by lia.
  simpl. by rewrite Nat2Z.id.
Qed.

Lemma list_index_None {A} (l : list A) (row : Z) :
  list_index l row = None
  ↔ (row < - Z.of_nat (length l) ∨ Z.of_nat (length l) ≤ row)%Z.
Proof.
  unfold list_index.
  destruct (Z.ltb_spec row 0) as [Hneg|Hpos].
  - destruct (Z.leb_spec 0 (row + Z.of_nat (length l))) as [H0|H0]; simpl.
    + rewrite (proj2 (Z.ltb_lt _ _)) by lia. split; [|lia].
      intros Hnone%lookup_ge_None. lia.
    + split; [lia|done].
  - rewrite (proj2 (Z.leb_le _ _)) by lia. simpl.
    destruct (Z.ltb_spec row (Z.of_nat (length l))) as [Hlt|Hge].
    + split; [|lia]. intros Hnone%lookup_ge_None. lia.
    + split; [lia|done].
Qed.

Lemma switch_keys_delete (l : list ParentLink) (i : nat) :
  switch_keys (delete i l) `sublist_of` switch_keys l.
Proof.
  revert i. induction l as [|x l IH]; intros i; [done|].
  destruct i as [|i].
  - change (delete 0 (x :: l)) with l.
    rewrite switch_keys_cons. case_decide; [by apply sublist_cons|done].
  - change (delete (S i) (x :: l)) with (x :: delete i l).
    rewrite !switch_keys_cons. case_decide; [by apply sublist_skip|done].
Qed.

Lemma switch_keys_snoc (l : list ParentLink) (link : ParentLink) :
  link ∉ l → NoDup (switch_keys l) → NoDup (switch_keys (l ++ [link])).
Proof.
  intros Hni Hnd. rewrite switch_keys_app. apply NoDup_app.
  split_and!; [done| |].
  - intros k (pl & Hin & Hty & ->)%elem_of_switch_keys
             (pl' & Hin'%list_elem_of_singleton & Hty' & Heq)%elem_of_switch_keys.
    subst pl'. apply Hni. destruct pl, link; simpl in *. by simplify_eq.
  - rewrite switch_keys_cons. case_decide; [apply NoDup_singleton|].
    apply NoDup_nil_2.
Qed.

Lemma removeRow_sublist (l : list ParentLink) (row : Z) :
  default l (snd <$> removeRow l row) `sublist_of` l.
Proof.
  unfold removeRow, list_pop. destruct (_ && _)%bool; simpl; [|done].
  apply sublist_delete.
Qed.

Lemma removeRow_switch_keys (l : list ParentLink) (row : Z) :
  NoDup (switch_keys l) →
  NoDup (switch_keys (default l (snd <$> removeRow l row))).
Proof.
  unfold removeRow, list_pop. destruct (_ && _)%bool; simpl; [|done].
  intros Hnd. eapply sublist_NoDup; [done|apply switch_keys_delete].
Qed.

Lemma appendLink_switch_keys (l : list ParentLink) (link : ParentLink) :
  NoDup (switch_keys l) → NoDup (switch_keys (appendLink l link).2).
Proof.
  intros Hnd. destruct (decide (link ∈ l)).
  - by rewrite appendLink_present.
  - rewrite appendLink_absent by done. by apply switch_keys_snoc.
Qed.

(** X1: [appendLink] never creates a repeated entry.  On a list without
    repeated entries it returns [True] exactly for a link that is not in
    the list yet, and the list afterwards has no repeated entries. *)
Theorem appendLink_keeps_distinct (l : list ParentLink) (link : ParentLink) :
  NoDup l →
  NoDup (appendLink l link).2 ∧ ((appendLink l link).1 = true ↔ link ∉ l).
Proof.
  intros Hnd. destruct (decide (link ∈ l)) as [Hin|Hni].
  - rewrite appendLink_present by done. simpl. split; [done|].
    split; [done|]. by intros [].
  - rewrite appendLink_absent by done. simpl. split; [|done].
    apply NoDup_app. split_and!; [done| |apply NoDup_singleton].
    intros x Hx Hx'%list_elem_of_singleton. by subst.
Qed.

Lemma appendLink_keeps_distinct_witness :
  NoDup (appendLink [mkParentLink 4 Next None]
           (mkParentLink 3 ForkBranch None)).2
  ∧ ((appendLink [mkParentLink 4 Next None]
        (mkParentLink 3 ForkBranch None)).1 = true
     ↔ mkParentLink 3 ForkBranch None ∉ [mkParentLink 4 Next None]).
Proof.
  apply (appendLink_keeps_distinct [mkParentLink 4 Next None]
           (mkParentLink 3 ForkBranch None)).
  by_evaluation.
Defined.

(** X2: adding a link that is not in the list and then removing the last
    row, named by its index or as row -1, gives back the list as it
    was. *)
Theorem append_then_remove_last (l : list ParentLink) (link : ParentLink) :
  link ∉ l →
  let l' := (appendLink l link).2 in
  removeRow l' (Z.of_nat (rowCount l)) = Some (true, l)
  ∧ removeRow l' (-1) = Some (true, l).
Proof.
  intros Hni. simpl. rewrite appendLink_absent by done. simpl.
  unfold removeRow, rowCount. split.
  - rewrite list_pop_in_range by (rewrite length_app; simpl; lia).
    simpl. by rewrite delete_middle, app_nil_r.
  - rewrite (list_pop_from_end _ 1) by (rewrite length_app; simpl; lia).
    simpl. rewrite length_app. simpl.
    replace (length l + 1 - 1) with (length l) by lia.
    by rewrite delete_middle, app_nil_r.
Qed.

Lemma append_then_remove_last_witness :
  removeRow (appendLink [mkParentLink 4 Next None]
               (mkParentLink 3 ForkBranch None)).2 1
  = Some (true, [mkParentLink 4 Next None])
  ∧ removeRow (appendLink [mkParentLink 4 Next None]
                 (mkParentLink 3 ForkBranch None)).2 (-1)
    = Some (true, [mkParentLink 4 Next None]).
Proof.
  apply (append_then_remove_last [mkParentLink 4 Next None]
           (mkParentLink 3 ForkBranch None)).
  by_evaluation.
Defined.

(** X3: [isValid] is kept by the edits of the list.  From a list that
    passes [isValid], every run of [appendLink] and [removeRow] calls
    gives a list that passes it: a second switch case of one parent with
    one value is an exact duplicate, which [appendLink] refuses. *)
Theorem edits_keep_valid (l : list ParentLink) (ops : list ModelOp) :
  isValid l = true → isValid (run_ops l ops) = true.
Proof.
  rewrite !isValid_NoDup. revert l.
  induction ops as [|op ops IH]; intros l Hnd; [done|].
  simpl. apply IH. destruct op as [link|row]; simpl.
  - by apply appendLink_switch_keys.
  - by apply removeRow_switch_keys.
Qed.

Lemma edits_keep_valid_witness :
  isValid (run_ops [mkParentLink 2 SwitchCase (Some 1%Z)]
             [OpAppend (mkParentLink 2 SwitchCase (Some 1%Z));
              OpAppend (mkParentLink 2 SwitchCase (Some 5%Z));
              OpRemove 0;
              OpAppend (mkParentLink 2 SwitchCase (Some 5%Z))]) = true.
Proof.
  apply (edits_keep_valid [mkParentLink 2 SwitchCase (Some 1%Z)]
           [OpAppend (mkParentLink 2 SwitchCase (Some 1%Z));
            OpAppend (mkParentLink 2 SwitchCase (Some 5%Z));
            OpRemove 0;
            OpAppend (mkParentLink 2 SwitchCase (Some 5%Z))]).
  reflexivity.
Defined.

(** X4: after [appendLink] accepts a link, the table has one more row,
    [data] with [UserRole] gives the new link back at the new last row,
    and every cell of the rows there were is as before. *)
Theorem appended_row_is_served (describe : nat → string)
    (l : list ParentLink) (link : ParentLink) :
  link ∉ l →
  let l' := (appendLink l link).2 in
  rowCount l' = S (rowCount l)
  ∧ (∀ col, data_cell describe l' (Z.of_nat (rowCount l)) col UserRole
            = Some (CellLink link))
  ∧ (∀ row col role, row < rowCount l →
       data_cell describe l' (Z.of_nat row) col role
       = data_cell describe l (Z.of_nat row) col role).
Proof.
  intros Hni. simpl. rewrite appendLink_absent by done. simpl.
  unfold rowCount, data_cell. split_and!.
  - rewrite length_app. simpl. lia.
  - intros col. rewrite list_index_in_range by (rewrite length_app; simpl; lia).
    by rewrite list_lookup_middle.
  - intros row col role Hrow.
    rewrite !list_index_in_range by (rewrite ?length_app; simpl; lia).
    by rewrite lookup_app_l.
Qed.

Lemma appended_row_is_served_witness :
  let l := [mkParentLink 4 Next None] in
  let l' := (appendLink l (mkParentLink 3 ForkBranch None)).2 in
  rowCount l' = 2
  ∧ (∀ col, data_cell (λ _, "") l' 1 col UserRole
            = Some (CellLink (mkParentLink 3 ForkBranch None)))
  ∧ (∀ row col role, row < rowCount l →
       data_cell (λ _, "") l' (Z.of_nat row) col role
       = data_cell (λ _, "") l (Z.of_nat row) col role).
Proof.
  apply (appended_row_is_served (λ _, "") [mkParentLink 4 Next None]
           (mkParentLink 3 ForkBranch None)).
  by_evaluation.
Defined.

(** X5: the rows [data] serves.  It raises [IndexError] exactly for a
    row outside [-rowCount, rowCount).  A row from [0] on is served the
    entry of the list at that position, and a negative row is served
    from the end of the list: row [-k] gives the cells of row
    [rowCount - k], so the row [-1] of an invalid index shows the last
    entry. *)
Theorem data_row_bounds (describe : nat → string) (l : list ParentLink)
    (row col : Z) (role : ItemDataRole) :
  (data_cell describe l row col role = None
   ↔ (row < - Z.of_nat (rowCount l) ∨ Z.of_nat (rowCount l) ≤ row)%Z)
  ∧ ((0 ≤ row < Z.of_nat (rowCount l))%Z →
     ∃ pl, l !! Z.to_nat row = Some pl
           ∧ data_cell describe l row col UserRole = Some (CellLink pl)
           ∧ data_cell describe l (row - Z.of_nat (rowCount l)) col role
             = data_cell describe l row col role)
  ∧ ((- Z.of_nat (rowCount l) ≤ row < 0)%Z →
     ∃ pl, l !! (rowCount l - Z.to_nat (- row)) = Some pl
           ∧ data_cell describe l row col UserRole = Some (CellLink pl)).
Proof.
  unfold rowCount. split_and!.
  - unfold data_cell. rewrite <- list_index_None.
    destruct (list_index l row); simpl; split; done.
  - intros Hrow.
    destruct (lookup_lt_is_Some_2 l (Z.to_nat row)) as [pl Hpl]; [lia|].
    assert (list_index l row = Some pl) as Hidx.
    { rewrite <- (Z2Nat.id row) by lia.
      rewrite list_index_in_range by lia. done. }
    assert (list_index l (row - Z.of_nat (length l)) = Some pl) as Hneg.
    { unfold list_index. rewrite (proj2 (Z.ltb_lt _ _)) by lia.
      rewrite (proj2 (Z.leb_le _ _)), (proj2 (Z.ltb_lt _ _)) by lia.
      simpl. rewrite <- Hpl. f_equal. lia. }
    exists pl. split; [done|]. unfold data_cell. rewrite Hidx, Hneg.
    split; [reflexivity|done].
  - intros Hrow.
    destruct (lookup_lt_is_Some_2 l (length l - Z.to_nat (- row)))
      as [pl Hpl]; [lia|].
    exists pl. split; [done|]. unfold data_cell.
    assert (list_index l row = Some pl) as ->.
    { unfold list_index. rewrite (proj2 (Z.ltb_lt _ _)) by lia.
      rewrite (proj2 (Z.leb_le _ _)), (proj2 (Z.ltb_lt _ _)) by lia.
      simpl. rewrite <- Hpl. f_equal. lia. }
    reflexivity.
Qed.

(** X6: the text of the [Link] column tells the links apart: two links
    with the same text have the same link type, and two switch cases with
    values and the same text have the same value. *)
Theorem link_text_distinguishes (pl pl' : ParentLink) :
  link_text pl = link_text pl' →
  link_type pl = link_type pl'
  ∧ (link_type pl = SwitchCase → is_Some (detail pl) →
     is_Some (detail pl') → detail pl = detail pl').
Proof.
  unfold link_text. intros Heq.
  destruct (link_type pl), (link_type pl'); try discriminate Heq;
    (split; [done|]); try done.
  intros _ [v Hv] [v' Hv']. rewrite Hv, Hv' in Heq |- *. f_equal.
  apply (inj (String.app "Switch case = ")) in Heq.
  by apply (inj pretty) in Heq.
Qed.

Lemma link_text_distinguishes_witness :
  link_type (mkParentLink 2 SwitchCase (Some 7%Z))
  = link_type (mkParentLink 5 SwitchCase (Some 7%Z))
  ∧ (link_type (mkParentLink 2 SwitchCase (Some 7%Z)) = SwitchCase →
     is_Some (detail (mkParentLink 2 SwitchCase (Some 7%Z))) →
     is_Some (detail (mkParentLink 5 SwitchCase (Some 7%Z))) →
     detail (mkParentLink 2 SwitchCase (Some 7%Z))
     = detail (mkParentLink 5 SwitchCase (Some 7%Z))).
Proof.
  apply (link_text_distinguishes (mkParentLink 2 SwitchCase (Some 7%Z))
           (mkParentLink 5 SwitchCase (Some 7%Z))).
  vm_compute. reflexivity.
Defined.

(** * The scan and the edits of the dialog *)

Lemma links_of_compatible (child e : nat) (d : EventData) (pl : ParentLink) :
  pl ∈ links_of child e d → compatible d pl ∧ linked_to child d.
Proof.
  rewrite elem_of_links_of. destruct d as [n|n|n|cs|fs|]; simpl.
  - intros [Hn Heq]. by rewrite Heq.
  - intros [Hn Heq]. by rewrite Heq.
  - intros [Hn Heq]. by rewrite Heq.
  - intros (v & Hv & Heq). rewrite Heq. simpl. split; [by eauto|by exists v].
  - intros [Hc Heq]. by rewrite Heq.
  - done.
Qed.

Lemma links_of_linked (child e : nat) (d : EventData) :
  linked_to child d → ∃ pl, pl ∈ links_of child e d.
Proof.
  destruct d as [n|n|n|cs|fs|]; intros Hl; simpl in Hl.
  - eexists. apply elem_of_links_of. by split.
  - eexists. apply elem_of_links_of. by split.
  - eexists. apply elem_of_links_of. by split.
  - destruct Hl as [v Hv]. eexists. apply elem_of_links_of. by exists v.
  - eexists. apply elem_of_links_of. by split.
  - done.
Qed.

Lemma compatible_fork_detail (d : EventData) (pl : ParentLink) :
  compatible d pl → link_type pl = ForkBranch → detail pl = None.
Proof. destruct d; simpl; intros Hc Hty; destruct Hc; congruence. Qed.

(** X7: the scan is sound and complete.  Every link it finds fits the
    payload of its parent, and an event is the parent of a link of the
    scan exactly when it is listed in the flowchart and its payload has a
    link into the child. *)
Theorem scan_sound_and_complete (h : gmap nat Event) (fd : FlowData)
    (child : nat) (f : EventFlow) (fc : Flowchart) :
  flow fd = Some f → flowchart f = Some fc →
  let scan := _gatherExistingLinks h fd child in
  (∀ pl, pl ∈ scan →
         ∃ ev, h !! parent pl = Some ev ∧ compatible (data ev) pl) ∧
  (∀ e, (∃ pl, pl ∈ scan ∧ parent pl = e)
        ↔ e ∈ events fc ∧ ∃ ev, h !! e = Some ev ∧ linked_to child (data ev)).
Proof.
  intros Hf Hfc. simpl. unfold _gatherExistingLinks. rewrite Hf, Hfc. split.
  - intros pl [_ (ev & Hev & Hin)%elem_of_links_from]%elem_of_scan.
    exists ev. split; [done|]. by eapply links_of_compatible.
  - intros e. split.
    + intros (pl & [Hp (ev & Hev & Hin)%elem_of_links_from]%elem_of_scan & <-).
      split; [done|]. exists ev. split; [done|].
      by eapply links_of_compatible.
    + intros (He & ev & Hev & Hl).
      destruct (links_of_linked child e (data ev) Hl) as [pl Hin].
      pose proof (links_of_parent _ _ _ _ Hin) as Hp.
      exists pl. split; [|done]. apply elem_of_scan. rewrite Hp.
      split; [done|]. apply elem_of_links_from. by exists ev.
Qed.

Lemma scan_sound_and_complete_witness :
  let scan := _gatherExistingLinks sample_store sample_flow 0 in
  (∀ pl, pl ∈ scan →
         ∃ ev, sample_store !! parent pl = Some ev ∧ compatible (data ev) pl) ∧
  (∀ e, (∃ pl, pl ∈ scan ∧ parent pl = e)
        ↔ e ∈ [0; 1; 2; 3; 4; 5; 6]
          ∧ ∃ ev, sample_store !! e = Some ev ∧ linked_to 0 (data ev)).
Proof.
  apply (scan_sound_and_complete sample_store sample_flow 0
           (mkEventFlow (Some (mkFlowchart [0; 1; 2; 3; 4; 5; 6])))
           (mkFlowchart [0; 1; 2; 3; 4; 5; 6])); reflexivity.
Defined.

Lemma scan_links_fit (h : gmap nat Event) (fd : FlowData) (child : nat)
    (pl : ParentLink) :
  pl ∈ _gatherExistingLinks h fd child →
  ∃ ev, h !! parent pl = Some ev ∧ compatible (data ev) pl.
Proof.
  unfold _gatherExistingLinks.
  destruct (flow fd) as [f|]; [|by intros ?%elem_of_nil].
  destruct (flowchart f) as [fc|]; [|by intros ?%elem_of_nil].
  intros [_ (ev & Hev & Hin)%elem_of_links_from]%elem_of_scan.
  exists ev. split; [done|]. by eapply links_of_compatible.
Qed.

(** The branches of [addParent]: the list stays as it is, or one link is
    added at its end, for a chosen event other than the child, of the
    type that fits the payload of that event. *)
Lemma addParent_cases (h : gmap nat Event) (child : nat)
    (l : list ParentLink) (chosen : option nat) (value : Z) (ok : bool) :
  let r := addParent h child l chosen value ok in
  (r.1 ≠ ParentAdded ∧ r.2 = l) ∨
  ∃ selected ev link,
    chosen = Some selected ∧ selected ≠ child ∧ h !! selected = Some ev
    ∧ compatible (data ev) link ∧ parent link = selected ∧ (link ∉ l)
    ∧ r = (ParentAdded, l ++ [link]).
Proof.
  simpl. unfold addParent.
  destruct chosen as [selected|]; [|by left].
  case_decide as Hself; [by left|].
  destruct (h !! selected) as [ev|] eqn:Hev; simpl; [|by left].
  assert (∀ link, compatible (data ev) link → parent link = selected →
            ((append_parent l link).1 ≠ ParentAdded
             ∧ (append_parent l link).2 = l) ∨
            ∃ selected' ev' link',
              Some selected = Some selected' ∧ selected' ≠ child
              ∧ h !! selected' = Some ev' ∧ compatible (data ev') link'
              ∧ parent link' = selected' ∧ (link' ∉ l)
              ∧ append_parent l link = (ParentAdded, l ++ [link'])) as Happ.
  { intros link Hc Hp. unfold append_parent.
    destruct (decide (link ∈ l)) as [Hin|Hni].
    - rewrite appendLink_present by done. by left.
    - rewrite appendLink_absent by done. right.
      exists selected, ev, link. rewrite Hev. by split_and!. }
  destruct (data ev) as [n|n|n|cs|fs|] eqn:Hdata;
    try (by apply Happ); [|by left].
  destruct ok; [|by left]. apply Happ; [|done]. simpl. by eauto.
Qed.

(** X8: what [addParent] does to the list.  It adds the link [link] at
    the end exactly when an event other than the child is chosen, [link]
    is for that event and of the type that fits its payload ([Next] for
    an action, join or subflow, [ForkBranch] for a fork, [SwitchCase]
    for a switch), a switch link carries the value entered in a value
    dialog that was confirmed, and [link] is not in the list yet.  In
    every other case the list is as it was; so it is when the value
    dialog of a switch is dismissed, and when the switch case entered is
    in the list already. *)
Theorem addParent_adds_fitting_link (h : gmap nat Event) (child : nat)
    (l : list ParentLink) (chosen : option nat) (value : Z) (ok : bool) :
  let r := addParent h child l chosen value ok in
  (∀ link,
     r = (ParentAdded, l ++ [link])
     ↔ ∃ selected ev,
         chosen = Some selected ∧ selected ≠ child ∧ h !! selected = Some ev
         ∧ parent link = selected ∧ compatible (data ev) link
         ∧ (link_type link = SwitchCase → ok = true ∧ detail link = Some value)
         ∧ (link ∉ l))
  ∧ ((∃ link, r = (ParentAdded, l ++ [link]))
     ∨ (r.1 ≠ ParentAdded ∧ r.2 = l))
  ∧ (∀ selected ev cases,
       chosen = Some selected → h !! selected = Some ev →
       data ev = SwitchEvent cases →
       (ok = false → r.2 = l)
       ∧ (mkParentLink selected SwitchCase (Some value) ∈ l → r.2 = l)).
Proof.
  simpl. split_and!.
  - intros link. split.
    + intros Hr. unfold addParent in Hr.
      destruct chosen as [selected|]; [|done].
      case_decide as Hself; [done|].
      destruct (h !! selected) as [ev|] eqn:Hev; simpl in Hr; [|done].
      assert (∀ link0, append_parent l link0 = (ParentAdded, l ++ [link]) →
                link0 = link ∧ (link ∉ l)) as Happ.
      { intros link0. unfold append_parent.
        destruct (decide (link0 ∈ l)) as [Hin|Hni].
        - rewrite appendLink_present by done. done.
        - rewrite appendLink_absent by done. simpl.
          intros [= Heq%app_inj_tail]. destruct Heq as [_ ->]. done. }
      exists selected, ev.
      destruct (data ev) as [n|n|n|cs|fs|] eqn:Hdata; [..|done].
      * apply Happ in Hr as [<- Hni]. by split_and!.
      * apply Happ in Hr as [<- Hni]. by split_and!.
      * apply Happ in Hr as [<- Hni]. by split_and!.
      * destruct ok; [|done]. apply Happ in Hr as [<- Hni].
        split_and!; simpl; by eauto.
      * apply Happ in Hr as [<- Hni]. by split_and!.
    + intros (selected & ev & -> & Hne & Hev & Hp & Hc & Hsw & Hni).
      unfold addParent. rewrite decide_False by done. rewrite Hev. simpl.
      destruct link as [p ty dt]. simpl in *. subst p.
      destruct (data ev) as [n|n|n|cs|fs|]; simpl in Hc;
        try (destruct Hc as [-> ->]; unfold append_parent;
             by rewrite appendLink_absent by done); [|done].
      destruct Hc as [-> _]. destruct (Hsw eq_refl) as [-> ->].
      unfold append_parent. by rewrite appendLink_absent by done.
  - destruct (addParent_cases h child l chosen value ok)
      as [Hsame|(selected & ev & link & _ & _ & _ & _ & _ & _ & Hr)].
    + by right.
    + left. by exists link.
  - intros selected ev cases -> Hev Hdata. unfold addParent.
    case_decide; [done|]. rewrite Hev. simpl. rewrite Hdata. split.
    + by intros ->.
    + intros Hin. destruct ok; [|done]. unfold append_parent.
      by rewrite appendLink_present by done.
Qed.

(** A property of lists kept by removing a row and by adding a fitting
    link of a chosen event holds after every run of edits. *)
Lemma edit_dialog_inv (h : gmap nat Event) (child : nat)
    (P : list ParentLink → Prop) :
  (∀ l row, P l → P (default l (snd <$> removeRow l row))) →
  (∀ l link ev, P l → link ∉ l → parent link ≠ child →
                h !! parent link = Some ev → compatible (data ev) link →
                P (l ++ [link])) →
  ∀ eds l, P l → P (edit_dialog h child l eds).
Proof.
  intros Hrm Hadd eds. induction eds as [|ed eds IH]; intros l Hl; [done|].
  simpl. apply IH. destruct ed as [chosen value ok|row]; simpl.
  - destruct (addParent_cases h child l chosen value ok)
      as [[_ ->]|(selected & ev & link & _ & Hne & Hev & Hc & Hp & Hni & ->)];
      [done|].
    simpl. subst selected. by eapply Hadd.
  - by apply Hrm.
Qed.

(** X9: the working list of a dialog always fits the store it was opened
    on: after the scan and every run of [addParent] and row removals,
    each link names an event with a record whose payload fits the link
    type. *)
Theorem edited_links_fit (h : gmap nat Event) (fd : FlowData) (child : nat)
    (eds : list DialogEdit) (pl : ParentLink) :
  pl ∈ edit_dialog h child (model (open_dialog h fd child)) eds →
  ∃ ev, h !! parent pl = Some ev ∧ compatible (data ev) pl.
Proof.
  revert pl.
  apply (edit_dialog_inv h child
           (λ l, ∀ pl, pl ∈ l →
                       ∃ ev, h !! parent pl = Some ev
                             ∧ compatible (data ev) pl)).
  - intros l row Hl pl Hin. apply Hl.
    eapply elem_of_submseteq; [done|].
    apply sublist_submseteq, removeRow_sublist.
  - intros l link ev Hl _ _ Hev Hc pl [Hin|Hin%list_elem_of_singleton]%elem_of_app.
    + by apply Hl.
    + subst pl. by exists ev.
  - intros pl. apply scan_links_fit.
Qed.

Lemma edited_links_fit_witness :
  ∃ ev, sample_store !! 1 = Some ev
        ∧ compatible (data ev) (mkParentLink 1 Next None).
Proof.
  apply (edited_links_fit sample_store sample_flow 0
           [EditRemove 0; EditAdd (Some 1) 0 true]
           (mkParentLink 1 Next None)).
  by_evaluation.
Defined.

(** X10: the working list of a dialog always passes [isValid], as the
    comment in [_applyChanges] says: opened on a flowchart that lists
    each event once and whose switches are dictionaries, after every run
    of [addParent] and row removals the list has no two switch cases of
    one parent with one value. *)
Theorem edited_model_valid (h : gmap nat Event) (fd : FlowData) (child : nat)
    (f : EventFlow) (fc : Flowchart) (eds : list DialogEdit) :
  flow fd = Some f → flowchart f = Some fc →
  NoDup (events fc) → store_wf h →
  isValid (edit_dialog h child (model (open_dialog h fd child)) eds) = true.
Proof.
  intros Hf Hfc Hnd Hwf. apply isValid_NoDup.
  apply (edit_dialog_inv h child (λ l, NoDup (switch_keys l))).
  - intros l row. apply removeRow_switch_keys.
  - intros l link ev Hl Hni _ _ _. by apply switch_keys_snoc.
  - simpl. unfold _gatherExistingLinks. rewrite Hf, Hfc.
    by apply scan_switch_keys.
Qed.

Lemma edited_model_valid_witness :
  isValid (edit_dialog sample_store 0
             (model (open_dialog sample_store sample_flow 0))
             [EditAdd (Some 2) 1 true; EditAdd (Some 2) 3 true;
              EditRemove 1; EditAdd (Some 2) 3 true]) = true.
Proof.
  apply (edited_model_valid sample_store sample_flow 0
           (mkEventFlow (Some (mkFlowchart [0; 1; 2; 3; 4; 5; 6])))
           (mkFlowchart [0; 1; 2; 3; 4; 5; 6])).
  - reflexivity.
  - reflexivity.
  - by_evaluation.
  - apply store_wfb_true. vm_compute. reflexivity.
Defined.

(** X11: [addParent] never makes the child its own parent.  If the scan
    found no link from the child to itself, no run of [addParent] and row
    removals puts one in the working list. *)
Theorem edited_no_self_parent (h : gmap nat Event) (fd : FlowData)
    (child : nat) (eds : list DialogEdit) :
  (∀ pl, pl ∈ _gatherExistingLinks h fd child → parent pl ≠ child) →
  ∀ pl, pl ∈ edit_dialog h child (model (open_dialog h fd child)) eds →
        parent pl ≠ child.
Proof.
  intros Hscan.
  apply (edit_dialog_inv h child (λ l, ∀ pl, pl ∈ l → parent pl ≠ child)).
  - intros l row Hl pl Hin. apply Hl.
    eapply elem_of_submseteq; [done|].
    apply sublist_submseteq, removeRow_sublist.
  - intros l link ev Hl _ Hne _ _ pl [Hin|Hin%list_elem_of_singleton]%elem_of_app.
    + by apply Hl.
    + by subst pl.
  - exact Hscan.
Qed.

Lemma edited_no_self_parent_witness :
  mkParentLink 1 Next None
    ∈ edit_dialog sample_store 0
        (model (open_dialog sample_store sample_flow 0))
        [EditAdd (Some 0) 0 true; EditAdd (Some 1) 0 true]
  ∧ parent (mkParentLink 1 Next None) ≠ 0.
Proof.
  assert (mkParentLink 1 Next None
            ∈ edit_dialog sample_store 0
                (model (open_dialog sample_store sample_flow 0))
                [EditAdd (Some 0) 0 true; EditAdd (Some 1) 0 true]) as Hin
    by by_evaluation.
  split; [exact Hin|].
  apply (edited_no_self_parent sample_store sample_flow 0
           [EditAdd (Some 0) 0 true; EditAdd (Some 1) 0 true]);
    [|exact Hin].
  intros pl Hscan.
  assert (_gatherExistingLinks sample_store sample_flow 0
          = [mkParentLink 2 SwitchCase (Some 1%Z);
             mkParentLink 2 SwitchCase (Some 2%Z);
             mkParentLink 3 ForkBranch None;
             mkParentLink 3 ForkBranch None;
             mkParentLink 3 ForkBranch None;
             mkParentLink 4 Next None]) as Hs by (vm_compute; reflexivity).
  rewrite Hs in Hscan. each_member Hscan; discriminate.
Defined.

(** X12: through the dialog a fork cannot be given a second branch to
    the child.  After the scan and every run of [addParent] and row
    removals, the number of [ForkBranch] entries of a parent is at most
    the larger of the number the scan found and one. *)
Theorem edited_fork_count_bounded (h : gmap nat Event) (fd : FlowData)
    (child : nat) (eds : list DialogEdit) (p : nat) :
  fork_count (edit_dialog h child (model (open_dialog h fd child)) eds) p
  ≤ max (fork_count (_gatherExistingLinks h fd child) p) 1.
Proof.
  set (n := fork_count (_gatherExistingLinks h fd child) p).
  apply (edit_dialog_inv h child
           (λ l, fork_details_none l ∧ fork_count l p ≤ max n 1)).
  - intros l row [Hnone Hle].
    apply (run_op_fork_count l (OpRemove row) p n); [done| |done].
    by intros link.
  - intros l link ev [Hnone Hle] Hni _ _ Hc.
    pose proof (run_op_fork_count l (OpAppend link) p n Hnone) as Hrun.
    simpl in Hrun. rewrite appendLink_absent in Hrun by done.
    apply Hrun; [|done]. intros link' [= <-]. by eapply compatible_fork_detail.
  - split; [apply scan_fork_details_none|]. unfold n. simpl. lia.
Qed.

(** * The outcomes of saving *)

Lemma get_app_Some {K V} `{EqDecision K} (d d' : list (K * V)) (k : K) (v : V) :
  PyDict.get d k = Some v → PyDict.get (d ++ d') k = Some v.
Proof.
  induction d as [|[k' v'] d IH]; simpl; [done|]. by case_decide.
Qed.

Lemma get_del_ne {K V} `{EqDecision K} (d : list (K * V)) (k k' : K) :
  k ≠ k' → PyDict.get (PyDict.del d k) k' = PyDict.get d k'.
Proof.
  intros Hne. induction d as [|[k0 v0] d IH]; simpl; [done|].
  destruct (decide (k0 = k)) as [->|Hk].
  - by rewrite decide_False.
  - simpl. by rewrite IH.
Qed.

Lemma remove_undesired_get (child : nat) (D : gset Z)
    (cs : list (Z * option nat)) (v : Z) (t : option nat) :
  PyDict.get cs v = Some t → t ≠ Some child →
  PyDict.get (remove_undesired child D cs) v = Some t.
Proof.
  intros Hg Ht. unfold remove_undesired.
  generalize (PyDict.keys cs) as ks. intros ks. revert cs Hg.
  induction ks as [|k ks IH]; intros cs Hg; simpl; [done|].
  apply IH. case_decide as Hc; [|done].
  rewrite get_del_ne; [done|]. intros ->. destruct Hc as [Hc _]. congruence.
Qed.

(** The insertion loop reports a value only if the switch binds it to
    something else than the child. *)
Lemma add_desired_cases_conflict (child : nat) (vs : list Z)
    (cs : list (Z * option nat)) (v : Z) :
  (add_desired_cases child vs cs).1 = Some v →
  v ∈ vs ∧ ∃ t, (v, t) ∈ cs ∧ t ≠ Some child.
Proof.
  revert cs. induction vs as [|w vs IH]; intros cs; simpl; [done|].
  destruct (PyDict.contains cs w) eqn:Ec; simpl.
  - case_bool_decide as Hg; simpl.
    + intros [= <-]. split; [left|].
      unfold PyDict.contains in Ec. apply bool_decide_eq_true in Ec as [t Ht].
      exists t. split; [by apply PyDictFacts.get_Some_elem|]. congruence.
    + intros (? & ?)%IH. split; [by right|done].
  - intros (Hin & t & Ht & Hne)%IH. split; [by right|].
    apply PyDictFacts.contains_false in Ec.
    rewrite PyDictFacts.set_absent in Ht by done.
    apply elem_of_app in Ht as [Ht|Ht%list_elem_of_singleton]; [by exists t|].
    by simplify_eq.
Qed.

(** The insertion loop does report when a desired value is bound to
    something else than the child. *)
Lemma add_desired_cases_detects (child : nat) (vs : list Z)
    (cs : list (Z * option nat)) (v : Z) (t : option nat) :
  v ∈ vs → PyDict.get cs v = Some t → t ≠ Some child →
  is_Some (add_desired_cases child vs cs).1.
Proof.
  revert cs. induction vs as [|w vs IH]; intros cs Hin Hg Ht; simpl.
  { by apply elem_of_nil in Hin. }
  destruct (PyDict.contains cs w) eqn:Ec; simpl.
  - case_bool_decide as Hgw; simpl; [by eexists|].
    apply elem_of_cons in Hin as [->|Hin]; [|by eapply IH].
    exfalso. rewrite Hg in Hgw. congruence.
  - apply elem_of_cons in Hin as [->|Hin].
    + unfold PyDict.contains in Ec. rewrite Hg in Ec.
      apply bool_decide_eq_false in Ec. exfalso. by apply Ec.
    + apply PyDictFacts.contains_false in Ec.
      rewrite PyDictFacts.set_absent by done.
      eapply IH; [done| |done]. by apply get_app_Some.
Qed.

Section Outcomes.
Context (iter_events : gset nat → list nat).
Context (iter_values : gset Z → list Z).
Context (iter_events_members : lists_members iter_events).
Context (iter_values_members : lists_members iter_values).

Lemma apply_events_outcome (D : Desired) (child : nat) (es : list nat)
    (h : gmap nat Event) :
  (apply_events iter_values D child es h).1 = Applied
  ∨ ∃ e v, (apply_events iter_values D child es h).1 = Conflict e v.
Proof.
  revert h. induction es as [|a es IH]; intros h; simpl; [by left|].
  destruct (h !! a) as [eva|]; [|apply IH].
  destruct (reconcile_event iter_values D child a eva).1 as [v|]; simpl.
  - right. by exists a, v.
  - apply IH.
Qed.

Lemma reconcile_event_detects (D : Desired) (child e : nat) (ev : Event)
    (cs : list (Z * option nat)) (v : Z) (t : option nat) :
  data ev = SwitchEvent cs → v ∈ default ∅ (desired_switch D !! e) →
  PyDict.get cs v = Some t → t ≠ Some child →
  is_Some (reconcile_event iter_values D child e ev).1.
Proof.
  intros Hdata Hv Hg Ht. unfold reconcile_event. rewrite Hdata. simpl.
  eapply add_desired_cases_detects; [by apply iter_values_members| |done].
  by apply remove_undesired_get.
Qed.

Lemma reconcile_event_conflict (D : Desired) (child e : nat) (ev : Event)
    (v : Z) :
  (∀ cs, data ev = SwitchEvent cs → PyDict.wf cs) →
  (reconcile_event iter_values D child e ev).1 = Some v →
  v ∈ default ∅ (desired_switch D !! e)
  ∧ ∃ cs t, data ev = SwitchEvent cs ∧ PyDict.get cs v = Some t
            ∧ t ≠ Some child.
Proof.
  intros Hwf. unfold reconcile_event.
  destruct (data ev) as [n|n|n|cs|fs|] eqn:Hdata; simpl; try done.
  pose proof (Hwf cs eq_refl) as Hcs.
  intros (Hin & t & Ht & Hne)%add_desired_cases_conflict.
  split; [by apply iter_values_members|]. exists cs, t. split_and!; [done| |done].
  rewrite remove_undesired_filter in Ht by done.
  apply list_elem_of_filter in Ht as [_ Ht]. by apply PyDictFacts.elem_get.
Qed.

(** The loop finds a bound value: it cannot run to its end when a listed
    switch binds a desired value to another event. *)
Lemma apply_events_detects (D : Desired) (child : nat) (es : list nat)
    (h : gmap nat Event) (e : nat) (ev : Event)
    (cs : list (Z * option nat)) (v : Z) (t : option nat) :
  e ∈ es → h !! e = Some ev → data ev = SwitchEvent cs →
  v ∈ default ∅ (desired_switch D !! e) →
  PyDict.get cs v = Some t → t ≠ Some child →
  (apply_events iter_values D child es h).1 ≠ Applied.
Proof.
  intros He Hev Hdata Hv Hg Ht. revert h He Hev.
  induction es as [|a es IH]; intros h He Hev; simpl.
  { by apply elem_of_nil in He. }
  destruct (decide (a = e)) as [->|Hne].
  - rewrite Hev.
    destruct (reconcile_event_detects D child e ev cs v t) as [w ->]; done.
  - apply elem_of_cons in He as [?|He]; [congruence|].
    destruct (h !! a) as [eva|]; [|by apply IH].
    destruct (reconcile_event iter_values D child a eva).1; [done|].
    apply IH; [done|]. by rewrite lookup_insert_ne.
Qed.

(** Where the loop stops: at the first listed event whose body reports a
    value; the events not listed before it keep their records. *)
Lemma apply_events_conflict (D : Desired) (child : nat) (es : list nat)
    (h : gmap nat Event) (e : nat) (v : Z) :
  NoDup es →
  (apply_events iter_values D child es h).1 = Conflict e v →
  ∃ l1 l2 ev,
    es = l1 ++ e :: l2 ∧ h !! e = Some ev
    ∧ (reconcile_event iter_values D child e ev).1 = Some v
    ∧ ∀ x, x ∉ l1 → x ≠ e →
           (apply_events iter_values D child es h).2 !! x = h !! x.
Proof.
  revert h. induction es as [|a es IH]; intros h Hnd; simpl; [done|].
  apply NoDup_cons in Hnd as [Ha Hnd].
  destruct (h !! a) as [eva|] eqn:Ea.
  - destruct (reconcile_event iter_values D child a eva).1 as [w|] eqn:Er;
      simpl.
    + intros [= <- <-]. exists [], es, eva. split_and!; [done|done|done|].
      intros x _ Hx. by rewrite lookup_insert_ne.
    + intros Hc. destruct (IH _ Hnd Hc) as (l1 & l2 & ev & -> & Hev & Hr & Hx).
      assert (a ≠ e).
      { intros ->. apply Ha. apply elem_of_app. right. left. }
      rewrite lookup_insert_ne in Hev by done.
      exists (a :: l1), l2, ev. split_and!; [done|done|done|].
      intros x Hx1 Hx2. apply not_elem_of_cons in Hx1 as [? ?].
      rewrite Hx by done. by rewrite lookup_insert_ne.
  - intros Hc. destruct (IH _ Hnd Hc) as (l1 & l2 & ev & -> & Hev & Hr & Hx).
    exists (a :: l1), l2, ev. split_and!; [done|done|done|].
    intros x Hx1 Hx2. apply not_elem_of_cons in Hx1 as [? ?]. by apply Hx.
Qed.

(** A conflict comes from the loop. *)
Lemma applyChanges_conflict (answer : bool) (dlg : EditParentsDialog)
    (h : gmap nat Event) (e : nat) (v : Z) :
  (_applyChanges iter_events iter_values answer dlg h).1 = Conflict e v →
  ∃ f fc D,
    flow (flow_data dlg) = Some f ∧ flowchart f = Some fc
    ∧ build_desired no_desired (model dlg) = Some D
    ∧ _applyChanges iter_events iter_values answer dlg h
      = apply_events iter_values D (child_event dlg) (events fc) h.
Proof.
  unfold _applyChanges.
  destruct (flow (flow_data dlg)) as [f|] eqn:Ef; [|done].
  destruct (flowchart f) as [fc|] eqn:Efc; [|done].
  destruct (isValid (model dlg)); simpl; [|done].
  destruct (build_desired no_desired (model dlg)) as [D|] eqn:ED; [|done].
  destruct (_ && _)%bool; [done|]. intros _. by exists f, fc, D.
Qed.

(** X13: when [accept] does not report a change, the store is changed
    only in one case: every failure of [_applyChanges] other than a
    switch conflict (no flowchart, invalid list, failed assertion,
    declined overwrite) leaves the store as it was. *)
Theorem failure_without_conflict_is_pure (answer : bool)
    (dlg : EditParentsDialog) (h : gmap nat Event) :
  let r := _applyChanges iter_events iter_values answer dlg h in
  let a := accept iter_events iter_values answer dlg h in
  a.1 = false → (∀ e v, r.1 ≠ Conflict e v) → a.2 = h.
Proof.
  simpl. intros Hfail Hnc. unfold accept in *. simpl in *.
  apply bool_decide_eq_false in Hfail.
  destruct (applyChanges_cases iter_events iter_values answer dlg h)
    as [[_ Hh]|(f & fc & D & _ & _ & _ & _ & _ & Hr)]; simpl in *; [done|].
  rewrite Hr in Hfail, Hnc. exfalso.
  destruct (apply_events_outcome D (child_event dlg) (events fc) h)
    as [?|(e & v & ?)]; [done|by eapply Hnc].
Qed.

(** X14: a conflict is only reported when there is one.  On a flowchart
    that lists each event once and whose switches are dictionaries, the
    outcome [Conflict e v] means that [e] is a listed switch, that the
    desired list asks for case [v] of [e], and that [e] binds [v] to
    something else than the child. *)
Theorem conflict_report_is_sound (answer : bool) (dlg : EditParentsDialog)
    (h : gmap nat Event) (f : EventFlow) (fc : Flowchart) (e : nat) (v : Z) :
  flow (flow_data dlg) = Some f → flowchart f = Some fc →
  NoDup (events fc) → store_wf h →
  (_applyChanges iter_events iter_values answer dlg h).1 = Conflict e v →
  e ∈ events fc ∧ wants_case (model dlg) e v ∧
  ∃ ev cs t, h !! e = Some ev ∧ data ev = SwitchEvent cs
             ∧ PyDict.get cs v = Some t ∧ t ≠ Some (child_event dlg).
Proof.
  intros Hf Hfc Hnd Hwf Hc.
  destruct (applyChanges_conflict answer dlg h e v Hc)
    as (f' & fc' & D & Hf' & Hfc' & HD & Hr).
  assert (fc' = fc) as -> by congruence. rewrite Hr in Hc.
  destruct (apply_events_conflict D (child_event dlg) (events fc) h e v Hnd Hc)
    as (l1 & l2 & ev & Hes & Hev & Hrec & _).
  destruct (reconcile_event_conflict D (child_event dlg) e ev v)
    as (Hv & cs & t & Hdata & Hg & Ht); [|done|].
  { intros cs Hcs. by eapply Hwf. }
  split_and!.
  - rewrite Hes. apply elem_of_app. right. left.
  - by apply (build_desired_switch _ _ _ _ HD).
  - by exists ev, cs, t.
Qed.
(** X15: a conflict stops the loop where it is found.  On a flowchart
    that lists each event once, after the outcome [Conflict e v] the list
    of events splits at [e], and every event that is not listed before
    [e], apart from [e] itself, has the record it had before the call. *)
Theorem conflict_stops_the_loop (answer : bool) (dlg : EditParentsDialog)
    (h : gmap nat Event) (f : EventFlow) (fc : Flowchart) (e : nat) (v : Z) :
  flow (flow_data dlg) = Some f → flowchart f = Some fc →
  NoDup (events fc) →
  let r := _applyChanges iter_events iter_values answer dlg h in
  r.1 = Conflict e v →
  ∃ l1 l2, events fc = l1 ++ e :: l2
           ∧ ∀ x, x ∉ l1 → x ≠ e → r.2 !! x = h !! x.
Proof.
  intros Hf Hfc Hnd. simpl. intros Hc.
  destruct (applyChanges_conflict answer dlg h e v Hc)
    as (f' & fc' & D & Hf' & Hfc' & HD & Hr).
  assert (fc' = fc) as -> by congruence. rewrite Hr in Hc |- *.
  destruct (apply_events_conflict D (child_event dlg) (events fc) h e v Hnd Hc)
    as (l1 & l2 & ev & Hes & _ & _ & Hx).
  by exists l1, l2.
Qed.

(** X16: when saving succeeds.  For a list that passes [isValid] and
    whose switch cases carry values, on a flowchart that lists each event
    once and whose switches are dictionaries, [_applyChanges] returns
    [True] exactly when the user confirms or there is nothing to
    overwrite, and no listed switch binds a desired value to another
    event; this does not depend on the order in which the sets are
    iterated. *)
Theorem save_succeeds_iff (answer : bool) (dlg : EditParentsDialog)
    (h : gmap nat Event) (f : EventFlow) (fc : Flowchart) :
  flow (flow_data dlg) = Some f → flowchart f = Some fc →
  NoDup (events fc) → store_wf h →
  isValid (model dlg) = true →
  (∀ pl, pl ∈ model dlg → link_type pl = SwitchCase → is_Some (detail pl)) →
  (_applyChanges iter_events iter_values answer dlg h).1 = Applied
  ↔ (answer = true ∨ ¬ overwrites h (child_event dlg) (model dlg))
    ∧ ¬ bound_elsewhere h (child_event dlg) (events fc) (model dlg).
Proof.
  intros Hf Hfc Hnd Hwf Hv Hdet.
  destruct (build_desired_is_Some (model dlg) no_desired Hdet) as [D HD].
  unfold _applyChanges. rewrite Hf, Hfc, Hv, HD. simpl.
  set (child := child_event dlg). set (ov := to_overwrite iter_events h child D).
  assert (overwrites h child (model dlg) → ov ≠ []) as Hov1.
  { intros (pl & ev & x & Hin & Hty & Hev & Hn & Hx) Hnil.
    pose proof (to_overwrite_member iter_events iter_events_members
                  dlg h D pl ev x HD Hin Hty Hev Hn Hx) as Hm.
    fold child in Hm. fold ov in Hm. rewrite Hnil in Hm.
    by apply elem_of_nil in Hm. }
  assert (ov ≠ [] → overwrites h child (model dlg)) as Hov2.
  { intros Hne. destruct ov as [|p ov'] eqn:Eov; [done|].
    assert (p ∈ to_overwrite iter_events h child D) as Hp
      by (fold ov; rewrite Eov; left).
    apply list_elem_of_filter in Hp as [Hneed Hp].
    apply iter_events_members in Hp.
    apply (build_desired_next _ _ _ HD) in Hp as (pl & Hin & Hty & <-).
    unfold needs_overwrite in Hneed.
    destruct (h !! parent pl) as [ev|] eqn:Hev; [|done].
    destruct (sequential_nxt (data ev)) as [[x|]|] eqn:Hn; try done.
    apply bool_decide_unpack in Hneed. by exists pl, ev, x. }
  split.
  - intros Hrun.
    destruct (bool_decide (ov ≠ []) && negb answer) eqn:Eb; [done|]. split.
    + apply andb_false_iff in Eb as [Eb|Eb].
      * right. apply bool_decide_eq_false in Eb. intros Ho. by apply Eb, Hov1.
      * left. by destruct answer.
    + intros (e & ev & cs & v & t & He & Hev & Hdata & Hw & Hg & Ht).
      apply (apply_events_detects D child (events fc) h e ev cs v t);
        try done.
      by apply (build_desired_switch _ _ _ _ HD).
  - intros [Hconf Hnb].
    assert (bool_decide (ov ≠ []) && negb answer = false) as ->.
    { destruct Hconf as [->|Hno]; [apply andb_false_r|].
      rewrite bool_decide_false; [done|]. intros Hne. by apply Hno, Hov2. }
    destruct (apply_events_NoDup iter_values D child (events fc) h Hnd)
      as (h' & -> & _); [|done].
    intros e ev He Hev.
    destruct (reconcile_event iter_values D child e ev).1 as [v|] eqn:Er;
      [|done].
    exfalso. apply Hnb.
    destruct (reconcile_event_conflict D child e ev v)
      as (Hin & cs & t & Hdata & Hg & Ht); [|done|].
    { intros cs Hcs. by eapply Hwf. }
    exists e, ev, cs, v, t. split_and!; try done.
    by apply (build_desired_switch _ _ _ _ HD).
Qed.

(** X17: saving a dialog that was not edited succeeds without a question
    and changes nothing.  On a flowchart that lists each event once and
    whose switches are dictionaries, [accept] on the freshly opened
    dialog reports the change and leaves the store as it was, whatever
    the user would answer. *)
Theorem save_unedited_dialog (answer : bool) (h : gmap nat Event)
    (fd : FlowData) (child : nat) (f : EventFlow) (fc : Flowchart) :
  flow fd = Some f → flowchart f = Some fc →
  NoDup (events fc) → store_wf h →
  accept iter_events iter_values answer (open_dialog h fd child) h = (true, h).
Proof.
  intros Hf Hfc Hnd Hwf. unfold accept.
  by rewrite (applyChanges_scan_fixed iter_events iter_values
                iter_events_members iter_values_members
                answer h fd child f fc Hf Hfc Hnd Hwf).
Qed.
End Outcomes.

Lemma failure_without_conflict_is_pure_witness :
  (accept sorted_iter sorted_iter false
     (sample_dialog [mkParentLink 1 Next None]) sample_store).2
  = sample_store.
Proof.
  apply (failure_without_conflict_is_pure sorted_iter sorted_iter false
           (sample_dialog [mkParentLink 1 Next None]) sample_store).
  - vm_compute. reflexivity.
  - intros e v. vm_compute. discriminate.
Defined.

Lemma conflict_report_is_sound_witness :
  2 ∈ [0; 1; 2; 5] ∧ wants_case (model conflict_dialog) 2 3 ∧
  ∃ ev cs t, conflict_store !! 2 = Some ev ∧ data ev = SwitchEvent cs
             ∧ PyDict.get cs 3%Z = Some t ∧ t ≠ Some 0.
Proof.
  apply (conflict_report_is_sound sorted_iter sorted_iter sorted_iter_members
           true conflict_dialog conflict_store
           (mkEventFlow (Some (mkFlowchart [0; 1; 2; 5])))
           (mkFlowchart [0; 1; 2; 5]) 2 3).
  - reflexivity.
  - reflexivity.
  - by_evaluation.
  - apply store_wfb_true. vm_compute. reflexivity.
  - vm_compute. reflexivity.
Defined.

Lemma conflict_stops_the_loop_witness :
  ∃ l1 l2, [0; 1; 2; 5] = l1 ++ 2 :: l2
           ∧ ∀ x, x ∉ l1 → x ≠ 2 →
                  (_applyChanges sorted_iter sorted_iter true
                     conflict_dialog conflict_store).2 !! x
                  = conflict_store !! x.
Proof.
  apply (conflict_stops_the_loop sorted_iter sorted_iter
           true conflict_dialog conflict_store
           (mkEventFlow (Some (mkFlowchart [0; 1; 2; 5])))
           (mkFlowchart [0; 1; 2; 5]) 2 3).
  - reflexivity.
  - reflexivity.
  - by_evaluation.
  - vm_compute. reflexivity.
Defined.

Lemma save_succeeds_iff_witness :
  let desired := [mkParentLink 1 Next None;
                  mkParentLink 2 SwitchCase (Some 3%Z)] in
  (_applyChanges sorted_iter sorted_iter true
     (sample_dialog desired) sample_store).1 = Applied
  ↔ (true = true ∨ ¬ overwrites sample_store 0 desired)
    ∧ ¬ bound_elsewhere sample_store 0 [0; 1; 2; 3; 4; 5; 6] desired.
Proof.
  apply (save_succeeds_iff sorted_iter sorted_iter
           sorted_iter_members sorted_iter_members true
           (sample_dialog [mkParentLink 1 Next None;
                           mkParentLink 2 SwitchCase (Some 3%Z)])
           sample_store
           (mkEventFlow (Some (mkFlowchart [0; 1; 2; 3; 4; 5; 6])))
           (mkFlowchart [0; 1; 2; 3; 4; 5; 6])).
  - reflexivity.
  - reflexivity.
  - by_evaluation.
  - apply store_wfb_true. vm_compute. reflexivity.
  - vm_compute. reflexivity.
  - intros pl Hin Hty. each_member Hin; [discriminate Hty|by eexists].
Defined.

Lemma save_unedited_dialog_witness :
  accept sorted_iter sorted_iter false
    (open_dialog sample_store sample_flow 0) sample_store
  = (true, sample_store).
Proof.
  apply (save_unedited_dialog sorted_iter sorted_iter
           sorted_iter_members sorted_iter_members false
           sample_store sample_flow 0
           (mkEventFlow (Some (mkFlowchart [0; 1; 2; 3; 4; 5; 6])))
           (mkFlowchart [0; 1; 2; 3; 4; 5; 6])).
  - reflexivity.
  - reflexivity.
  - by_evaluation.
  - apply store_wfb_true. vm_compute. reflexivity.
Defined.

(** * The title of the timeline window *)

Lemma has_star_marked (title : string) :
  TimelineWindow.has_star (title +:+ " *") = true.
Proof.
  induction title as [|c rest IH]; [done|]. simpl. by case_decide.
Qed.

Lemma without_marker_two (c c' : ascii) (rest : string) :
  TimelineWindow.without_marker (String c (String c' rest))
  = if decide (c = " "%char ∧ c' = "*"%char)
    then TimelineWindow.without_marker rest
    else String c (TimelineWindow.without_marker (String c' rest)).
Proof. reflexivity. Qed.

Lemma has_star_cons (c : ascii) (rest : string) :
  TimelineWindow.has_star (String c rest)
  = if decide (c = "*"%char) then true else TimelineWindow.has_star rest.
Proof. reflexivity. Qed.

Lemma without_marker_marked (title : string) :
  TimelineWindow.has_star title = false →
  TimelineWindow.without_marker (title +:+ " *") = title.
Proof.
  induction title as [|c rest IH]; [done|].
  rewrite has_star_cons. destruct (decide (c = "*"%char)) as [|Hc]; [done|].
  intros Hrest. destruct rest as [|c' rest'].
  - change (String c "" +:+ " *") with (String c (String " " "*")).
    rewrite without_marker_two.
    destruct (decide (c = " "%char ∧ " "%char = "*"%char)) as [[_ H2]|_];
      [inversion H2|done].
  - change (String c (String c' rest') +:+ " *")
      with (String c (String c' (rest' +:+ " *"))).
    rewrite without_marker_two.
    rewrite has_star_cons in Hrest.
    destruct (decide (c' = "*"%char)) as [|Hc']; [done|].
    destruct (decide (c = " "%char ∧ c' = "*"%char)) as [[_ H2]|_]; [done|].
    f_equal. apply IH. rewrite has_star_cons. by rewrite decide_False.
Qed.

(** X18: the unsaved marker goes on and comes off.  For a title without
    a star, [on_timeline_modified] makes [closeEvent] ask about unsaved
    changes, and a [save_file] that wrote the file gives back the title
    as it was, for which [closeEvent] does not ask. *)
Theorem marker_round_trip (title : string) :
  TimelineWindow.has_star title = false →
  let marked := TimelineWindow.on_timeline_modified title in
  TimelineWindow.asks_on_close marked = true
  ∧ TimelineWindow.saved_title marked = title
  ∧ TimelineWindow.asks_on_close (TimelineWindow.saved_title marked) = false.
Proof.
  intros Hs. simpl.
  unfold TimelineWindow.on_timeline_modified, TimelineWindow.saved_title,
    TimelineWindow.asks_on_close.
  rewrite Hs, has_star_marked, without_marker_marked by done. by rewrite Hs.
Qed.

Lemma marker_round_trip_witness :
  let title := TimelineWindow.loaded_title "demo.bfevfl" in
  let marked := TimelineWindow.on_timeline_modified title in
  TimelineWindow.asks_on_close marked = true
  ∧ TimelineWindow.saved_title marked = title
  ∧ TimelineWindow.asks_on_close (TimelineWindow.saved_title marked) = false.
Proof.
  apply (marker_round_trip (TimelineWindow.loaded_title "demo.bfevfl")).
  vm_compute. reflexivity.
Defined.

(** X19: the marker is set once.  After [on_timeline_modified] the title
    holds a star, so [closeEvent] asks, and further modifications leave
    the title as it is. *)
Theorem marker_is_set_once (title : string) :
  let marked := TimelineWindow.on_timeline_modified title in
  TimelineWindow.asks_on_close marked = true
  ∧ TimelineWindow.on_timeline_modified marked = marked.
Proof.
  simpl. unfold TimelineWindow.on_timeline_modified,
    TimelineWindow.asks_on_close.
  destruct (TimelineWindow.has_star title) eqn:Hs.
  - by rewrite Hs.
  - by rewrite has_star_marked.
Qed.

(** * The clips of the timeline editor *)

Section TimelineFacts.
Context {F : Type} (zero one : F).
Local Abbreviation prepare := (Timeline.prepare_timeline_data zero one).

Lemma prepare_lookup (tl : option (Timeline.Timeline (F := F))) (i : nat) :
  prepare tl !! i
  = Timeline.clip_dict zero one i <$> (Timeline.clips_of tl !! i).
Proof.
  unfold Timeline.prepare_timeline_data. destruct tl as [t|].
  - apply list_lookup_imap.
  - simpl. by rewrite !lookup_nil.
Qed.

(** X20: the ids of [prepare_timeline_data] lead back to the clips.  The
    entry at position [i] has the id [i], a clip stands at that position
    of the timeline, and [on_clip_selected] with that id selects it. *)
Theorem clip_ids_round_trip (tl : option (Timeline.Timeline (F := F)))
    (selected : option (gmap string (Timeline.Val (F := F))))
    (i : nat) (d : Timeline.ClipData (F := F)) :
  prepare tl !! i = Some d →
  Timeline.cd_id d = i
  ∧ is_Some (Timeline.clips_of tl !! i)
  ∧ Timeline.on_clip_selected tl selected (Some (Z.of_nat (Timeline.cd_id d)))
    = Timeline.clips_of tl !! i.
Proof.
  rewrite prepare_lookup. intros Hd.
  destruct (Timeline.clips_of tl !! i) as [clip|] eqn:Hclip; [|done].
  simpl in Hd. injection Hd as <-. simpl. split_and!; [done|by eexists|].
  unfold Timeline.on_clip_selected. simpl.
  apply lookup_lt_Some in Hclip as Hlt.
  rewrite (proj2 (Z.leb_le _ _)), (proj2 (Z.ltb_lt _ _)) by lia.
  simpl. by rewrite Nat2Z.id.
Qed.

(** X22: [AddClipDialog.accept] with a name, on a timeline with a list of
    clips, puts the new clip last and keeps the others: the data for the
    view is the data before, followed by one entry with the next id, the
    entered name, times and type, and no actor. *)
Theorem added_clip_is_listed_last (l : list (gmap string (Timeline.Val (F := F))))
    (name : string) (start duration : F) (type : string) :
  name ≠ "" →
  let tl := Some (Timeline.mkTimeline (Some l)) in
  let r := Timeline.accept tl name start duration type in
  r.1 = true
  ∧ Timeline.clips_of r.2
    = l ++ [Timeline.new_clip name start duration type]
  ∧ prepare r.2
    = prepare tl
      ++ [Timeline.mkClipData (length l) (Timeline.VStr name)
            (Timeline.VNum start) (Timeline.VNum duration)
            (Timeline.VStr type) Timeline.VNone].
Proof.
  intros Hname. simpl. unfold Timeline.accept.
  rewrite decide_False by done. simpl. split_and!; [done|done|].
  rewrite imap_app. simpl. do 2 f_equal.
  unfold Timeline.clip_dict, Timeline.new_clip.
  rewrite Nat.add_0_r. f_equal.
Qed.
End TimelineFacts.

Lemma clip_ids_round_trip_witness :
  let clip := Timeline.new_clip "intro" 2 3 "camera" in
  let tl := Some (Timeline.mkTimeline (Some [clip; clip])) in
  let d := Timeline.clip_dict 0 1 1 clip in
  Timeline.cd_id d = 1
  ∧ is_Some (Timeline.clips_of tl !! 1)
  ∧ Timeline.on_clip_selected tl None (Some (Z.of_nat (Timeline.cd_id d)))
    = Timeline.clips_of tl !! 1.
Proof.
  apply (clip_ids_round_trip 0 1
           (Some (Timeline.mkTimeline
                    (Some [Timeline.new_clip "intro" 2 3 "camera";
                           Timeline.new_clip "intro" 2 3 "camera"])))
           None 1
           (Timeline.clip_dict 0 1 1 (Timeline.new_clip "intro" 2 3 "camera"))).
  reflexivity.
Defined.

Lemma added_clip_is_listed_last_witness :
  let l := [Timeline.new_clip "intro" 2 3 "camera"] in
  let tl := Some (Timeline.mkTimeline (Some l)) in
  let r := Timeline.accept tl "fight" 5 8 "action" in
  r.1 = true
  ∧ Timeline.clips_of r.2 = l ++ [Timeline.new_clip "fight" 5 8 "action"]
  ∧ Timeline.prepare_timeline_data 0 1 r.2
    = Timeline.prepare_timeline_data 0 1 tl
      ++ [Timeline.mkClipData 1 (Timeline.VStr "fight")
            (Timeline.VNum 5) (Timeline.VNum 8)
            (Timeline.VStr "action") Timeline.VNone].
Proof.
  apply (added_clip_is_listed_last 0 1
           [Timeline.new_clip "intro" 2 3 "camera"] "fight" 5 8 "action").
  discriminate.
Defined.
